(** * CICLA bike comfort map: field synthesis and gradient-following cyclists

    A shallow embedding of [sketch.js].  JavaScript numbers are read as real
    numbers: the arithmetic of the sketch is modelled exactly, rounding is not.
    Real division is total in Rocq, so every statement that depends on a
    quotient carries the side condition that keeps its divisor away from
    zero ([valid_sketch]).  Drawing calls (fill, rect, ellipse, vertex, ...)
    have no effect on the state and are left out. *)

From Stdlib Require Import Reals Lra Lia ZArith List Bool.
From Stdlib Require String.
Import ListNotations.
Import String.StringSyntax.
Delimit Scope string_scope with string.

Local Open Scope R_scope.

(** ** The p5.js helpers the sketch calls *)

Module P5.

(** [constrain(n, low, high)] is [Math.max(Math.min(n, high), low)]. *)
Definition constrain (n low high : R) : R := Rmax (Rmin n high) low.

(** The same helper on the integer-valued cell indices. *)
Definition constrainZ (n low high : Z) : Z := Z.max (Z.min n high) low.

(** [map(n, start1, stop1, start2, stop2)], without the optional bounds. *)
Definition map (n start1 stop1 start2 stop2 : R) : R :=
  (n - start1) / (stop1 - start1) * (stop2 - start2) + start2.

Definition sq (n : R) : R := n * n.

(** [dist(x1, y1, x2, y2)], the planar Euclidean distance. *)
Definition dist (x1 y1 x2 y2 : R) : R :=
  sqrt (sq (x2 - x1) + sq (y2 - y1)).

Definition floor (n : R) : Z := Zfloor n.

Definition TWO_PI : R := 2 * PI.

(** [p5.Vector] restricted to the plane ([createVector(x, y)] has z = 0). *)
Record Vector : Type := createVector { vx : R; vy : R }.

Definition mag (v : Vector) : R := sqrt (vx v * vx v + vy v * vy v).

Definition mult (v : Vector) (n : R) : Vector :=
  createVector (vx v * n) (vy v * n).

Definition add (v w : Vector) : Vector :=
  createVector (vx v + vx w) (vy v + vy w).

(** [normalize()] leaves the zero vector alone. *)
Definition normalize (v : Vector) : Vector :=
  let len := mag v in
  if Req_dec_T len 0 then v else mult v (1 / len).

End P5.

(** Comparisons of the sketch's [if] tests, as booleans. *)
Definition Rltb (a b : R) : bool := if Rlt_dec a b then true else false.
Definition Rleb (a b : R) : bool := if Rle_dec a b then true else false.

(** ** Data model *)

Record Point : Type := mkPoint { px : R; py : R }.

(** [weather] only ever holds one of the three strings set by [keyPressed]. *)
Inductive Weather : Type := Sunny | Rain | Heat.

(** The globals fixed by [setup], together with the noise function. *)
Record Sketch : Type := mkSketch {
  cols : nat;
  rows : nat;
  width : R;
  height : R;
  ecoPods : list Point;
  noise : R -> R -> R
}.

Definition cellW (sk : Sketch) : R := width sk / INR (cols sk).
Definition cellH (sk : Sketch) : R := height sk / INR (rows sk).

(** The divisors of the sketch are non-zero: [cols], [rows - 1], [width]. *)
Definition valid_sketch (sk : Sketch) : Prop :=
  (0 < cols sk)%nat /\ (1 < rows sk)%nat /\ 0 < width sk /\ 0 < height sk.

(** [comfortMap]: an array of [cols] columns, each an array of [rows] cells. *)
Definition Grid : Type := list (list R).

(** [comfortMap[i][j]]; [None] when the read falls outside the arrays. *)
Definition grid_get (g : Grid) (i j : nat) : option R :=
  match nth_error g i with
  | Some col => nth_error col j
  | None => None
  end.

Definition grid_dims (sk : Sketch) (g : Grid) : Prop :=
  length g = cols sk /\ Forall (fun col => length col = rows sk) g.

(** The configuration of [setup]: a 600 x 900 canvas, 70 x 105 cells and
    four eco-pods. *)
Definition setup (noise : R -> R -> R) : Sketch :=
  let width := 600 in
  let height := 900 in
  mkSketch 70 105 width height
    [ mkPoint (width * 0.3) (height * 0.25);
      mkPoint (width * 0.65) (height * 0.35);
      mkPoint (width * 0.4) (height * 0.6);
      mkPoint (width * 0.7) (height * 0.8) ]
    noise.

(** ** MapAgent: the field-synthesis pass *)

Module MapAgent.

Section Field.
Variable sk : Sketch.
Variable mode : Weather.
Variable frameCount : nat.

Definition t : R := INR frameCount * 0.01.
Definition rainCx : R := width sk * (0.5 + 0.3 * sin (t * 0.7)).
Definition rainCy : R := height sk * (0.5 + 0.2 * cos (t * 0.4)).
Definition rainRadius : R := width sk * 0.45.

(** The loop [for (let p of ecoPods)] that keeps the smallest distance,
    starting from the sentinel 9999. *)
Definition minPod (x y : R) : R :=
  fold_left
    (fun m p => let dp := P5.dist x y (px p) (py p) in
                if Rltb dp m then dp else m)
    (ecoPods sk) 9999.

Definition eco (x y : R) : R :=
  P5.constrain (P5.map (minPod x y) 0 (width sk * 0.4) 1 0) 0 1.

(** The weighted sum of the branch selected by the mode. *)
Definition blend (temp eco rain base : R) : R :=
  match mode with
  | Sunny => 0.35 * (1 - temp) + 0.35 * eco + 0.20 * (1 - rain) + 0.10 * base
  | Rain => 0.15 * (1 - temp) + 0.45 * eco + 0.30 * (1 - rain) + 0.10 * base
  | Heat => 0.55 * (1 - temp) + 0.20 * eco + 0.15 * (1 - rain) + 0.10 * base
  end.

Definition cell_temp (j : nat) : R :=
  P5.map (INR j) 0 (INR (rows sk) - 1) 1 0.

Definition cell_rain (x y : R) : R :=
  let dRain := P5.dist x y rainCx rainCy in
  exp (- P5.sq (dRain / rainRadius)).

(** The body of the two nested loops up to the unclamped [comfort]. *)
Definition raw_comfort (i j : nat) : R :=
  let x := (INR i + 0.5) * cellW sk in
  let y := (INR j + 0.5) * cellH sk in
  let base := noise sk (INR i * 0.08) (INR j * 0.08) in
  blend (cell_temp j) (eco x y) (cell_rain x y) base.

(** The value written to [comfortMap[i][j]]. *)
Definition cell_comfort (i j : nat) : R :=
  P5.constrain (raw_comfort i j) 0 1.

(** One pass of [act]: every cell of the grid is overwritten. *)
Definition act : Grid :=
  List.map (fun i => List.map (fun j => cell_comfort i j) (seq 0 (rows sk)))
           (seq 0 (cols sk)).

End Field.

(** The coefficients of [(1 - temp)], [eco], [(1 - rain)] and [base]
    read off the three branches. *)
Definition weights (mode : Weather) : R * R * R * R :=
  match mode with
  | Sunny => (0.35, 0.35, 0.20, 0.10)
  | Rain => (0.15, 0.45, 0.30, 0.10)
  | Heat => (0.55, 0.20, 0.15, 0.10)
  end.

End MapAgent.

(** ** comfortAt: the boundary-safe lookup *)

Definition comfortAt (sk : Sketch) (comfortMap : Grid) (x y : R) : option R :=
  if Rltb x 0 || Rleb (width sk) x || Rltb y 0 || Rleb (height sk) y
  then Some 0
  else
    let i := P5.floor (x / cellW sk) in
    let j := P5.floor (y / cellH sk) in
    let i := P5.constrainZ i 0 (Z.of_nat (cols sk) - 1) in
    let j := P5.constrainZ j 0 (Z.of_nat (rows sk) - 1) in
    grid_get comfortMap (Z.to_nat i) (Z.to_nat j).

(** ** Randomness and failure

    [random()] is read from a tape of the unit draws the generator will
    return, in order.  A computation may also stop on a JavaScript
    [TypeError] (a property read on [undefined]); that is [None]. *)

Definition Tape : Type := nat -> R.

Definition M (A : Type) : Type := Tape -> option (A * Tape).

Definition ret {A : Type} (a : A) : M A := fun s => Some (a, s).

Definition bind {A B : Type} (m : M A) (k : A -> M B) : M B :=
  fun s => match m s with
           | Some (a, s') => k a s'
           | None => None
           end.

Definition fail {A : Type} : M A := fun _ => None.

Definition lift {A : Type} (o : option A) : M A :=
  match o with Some a => ret a | None => fail end.

Notation "x <- m ;; k" := (bind m (fun x => k))
  (at level 61, m at next level, right associativity).

(** One draw of the generator, a number of [0, 1). *)
Definition rand : M R := fun s => Some (s 0%nat, fun k => s (S k)).

(** [random(max)]. *)
Definition random_max (max : R) : M R :=
  u <- rand ;; ret (u * max).

(** [random(min, max)]. *)
Definition random_range (min max : R) : M R :=
  u <- rand ;; ret (u * (max - min) + min).

(** [random(array)]: the element at [floor(rand * array.length)]. *)
Definition random_of {A : Type} (l : list A) : M (option A) :=
  u <- rand ;;
  ret (nth_error l (Z.to_nat (P5.floor (u * INR (length l))))).

Definition unit_tape (s : Tape) : Prop := forall k, 0 <= s k < 1.

(** ** Cyclist: the gradient-following agent *)

Module Cyclist.

(** The fields of a cyclist.  [perceivedGradient] and [localComfort] are
    [undefined] until the first [perceive]. *)
Record t : Type := mk {
  x : R;
  y : R;
  vel : P5.Vector;
  trail : list Point;
  perceivedGradient : option P5.Vector;
  localComfort : option R
}.

(** [this.localComfort < 0.18]; a comparison with [undefined] is false. *)
Definition lt_undef (o : option R) (b : R) : bool :=
  match o with Some a => Rltb a b | None => false end.

Section Agent.
Variable sk : Sketch.

Definition respawn (c : t) : M t :=
  p <- random_of (ecoPods sk) ;;
  angle <- random_max P5.TWO_PI ;;
  radius <- random_range 10 60 ;;
  p <- lift p ;;
  let x' := px p + cos angle * radius in
  let y' := py p + sin angle * radius in
  vx <- random_range (-1) 1 ;;
  vy <- random_range (-1) 1 ;;
  ret (mk x' y' (P5.createVector vx vy) []
          (perceivedGradient c) (localComfort c)).

(** [new Cyclist()]: an empty trail, then [respawn]. *)
Definition new : M t :=
  respawn (mk 0 0 (P5.createVector 0 0) [] None None).

Definition perceive (comfortMap : Grid) (c : t) : M t :=
  let eps := 10 in
  cCenter <- lift (comfortAt sk comfortMap (x c) (y c)) ;;
  cRight <- lift (comfortAt sk comfortMap (x c + eps) (y c)) ;;
  cLeft <- lift (comfortAt sk comfortMap (x c - eps) (y c)) ;;
  cUp <- lift (comfortAt sk comfortMap (x c) (y c - eps)) ;;
  cDown <- lift (comfortAt sk comfortMap (x c) (y c + eps)) ;;
  let gradX := (cRight - cLeft) / (2 * eps) in
  let gradY := (cDown - cUp) / (2 * eps) in
  ret (mk (x c) (y c) (vel c) (trail c)
          (Some (P5.createVector gradX gradY)) (Some cCenter)).

Definition maxSpeed : R := 2.0.

(** The speed limit at the end of [decide]. *)
Definition limit (v : P5.Vector) : P5.Vector :=
  if Rltb maxSpeed (P5.mag v)
  then P5.mult (P5.normalize v) maxSpeed
  else v.

Definition decide (c : t) : M t :=
  g <- lift (perceivedGradient c) ;;
  g <- (if Rltb (P5.mag g) 0.0005
        then gx <- random_range (-0.5) 0.5 ;;
             gy <- random_range (-0.5) 0.5 ;;
             ret (P5.createVector gx gy)
        else ret g) ;;
  let g := P5.normalize g in
  let v := P5.mult (vel c) 0.75 in
  let g := P5.mult g 0.25 in
  let v := P5.add v g in
  ret (mk (x c) (y c) (limit v) (trail c)
          (perceivedGradient c) (localComfort c)).

(** [push] followed by the conditional [shift]. *)
Definition trail_push (tr : list Point) (p : Point) : list Point :=
  let tr := tr ++ [p] in
  if (80 <? length tr)%nat then tl tr else tr.

(** The test that sends a cyclist back to an eco-pod. *)
Definition must_respawn (c : t) : bool :=
  Rltb (x c) (-40) || Rltb (width sk + 40) (x c) ||
  Rltb (y c) (-40) || Rltb (height sk + 40) (y c) ||
  lt_undef (localComfort c) 0.18.

(** The state after the move and the trail update of [act]. *)
Definition moved (c : t) : t :=
  let x' := x c + P5.vx (vel c) in
  let y' := y c + P5.vy (vel c) in
  mk x' y' (vel c) (trail_push (trail c) (mkPoint x' y'))
     (perceivedGradient c) (localComfort c).

Definition act (c : t) : M t :=
  let c := moved c in
  if must_respawn c then respawn c else ret c.

(** What [draw] does with one cyclist in one frame. *)
Definition frame (comfortMap : Grid) (c : t) : M t :=
  c <- perceive comfortMap c ;;
  c <- decide c ;;
  act c.

End Agent.

(** The states a cyclist can be in: freshly constructed, or one frame
    later than a reachable state, whatever the grid and the tape. *)
Inductive reachable (sk : Sketch) : t -> Prop :=
| reach_new : forall s c s',
    new sk s = Some (c, s') -> reachable sk c
| reach_frame : forall g s c c' s',
    reachable sk c -> frame sk g c s = Some (c', s') -> reachable sk c'.

End Cyclist.

(** ** Scenarios *)

(** The sketch of [setup] with its eco-pods removed. *)
Definition setup_without_pods (noise : R -> R -> R) : Sketch :=
  mkSketch (cols (setup noise)) (rows (setup noise)) (width (setup noise))
           (height (setup noise)) [] noise.

(** The velocity [decide] ends with, as a function of the direction [g]
    that is normalised: the perceived gradient or its random substitute. *)
Definition steer (v g : P5.Vector) : P5.Vector :=
  Cyclist.limit (P5.add (P5.mult v 0.75) (P5.mult (P5.normalize g) 0.25)).

(** A cyclist on a flat field, moving faster than the cap allows. *)
Definition flat_cyclist : Cyclist.t :=
  Cyclist.mk 300 450 (P5.createVector 3 4) []
             (Some (P5.createVector 0 0)) (Some 0.5).

(** A cyclist one step left of the right margin of the canvas of [setup],
    in the middle of its height, with a comfortable last sample. *)
Definition edge_cyclist : Cyclist.t :=
  Cyclist.mk 639 450 (P5.createVector 1 0) []
             (Some (P5.createVector 0 0)) (Some 0.5).

(** A cyclist whose last sample was uncomfortable. *)
Definition cold_cyclist : Cyclist.t :=
  Cyclist.mk 300 450 (P5.createVector 0 0) []
             (Some (P5.createVector 0 0)) (Some 0.1).

(** Every eco-pod lies at least 20 inside the playfield, so that a point
    within 60 of it is within the respawn margin of 40. *)
Definition pods_inside (sk : Sketch) : Prop :=
  forall p, In p (ecoPods sk) ->
    20 <= px p <= width sk - 20 /\ 20 <= py p <= height sk - 20.

(** The centre of cell [(i, j)], where the field is sampled. *)
Definition cell_x (sk : Sketch) (i : nat) : R := (INR i + 0.5) * cellW sk.
Definition cell_y (sk : Sketch) (j : nat) : R := (INR j + 0.5) * cellH sk.

(** A 4 x 4 grid on the canvas of [setup], one eco-pod at the centre and
    a noise function that is constantly 0. *)
Definition sketch4 : Sketch :=
  mkSketch 4 4 600 900 [mkPoint 300 450] (fun _ _ => 0).

(** Within every row, a cell at least as far from the centre column as
    another is at most as comfortable. *)
Definition row_nonincreasing (sk : Sketch) (mode : Weather) (frameCount : nat)
  : Prop :=
  forall i i' j,
    (i < cols sk)%nat -> (i' < cols sk)%nat -> (j < rows sk)%nat ->
    Rabs (cell_x sk i - width sk / 2) <= Rabs (cell_x sk i' - width sk / 2) ->
    MapAgent.cell_comfort sk mode frameCount i' j
    <= MapAgent.cell_comfort sk mode frameCount i j.

(** ** Presentation values computed in the same pass *)

(** The hue of a comfort value: 0 is red, 210 is blue.  The legend bar of
    [drawUI] uses the same mapping. *)
Definition hue (comfort : R) : R := P5.map comfort 0 1 0 210.

(** The brightness of a cell, [b + brightJitter], from the value [n] of the
    second noise sample. *)
Definition brightness (n : R) : R :=
  let b := 90 in
  let brightJitter := P5.map n 0 1 (-8) 8 in
  b + brightJitter.

(** The hue [act] fills cell [(i, j)] with. *)
Definition cell_hue (sk : Sketch) (mode : Weather) (frameCount i j : nat) : R :=
  hue (MapAgent.cell_comfort sk mode frameCount i j).

(** The hue of column [x] of the legend bar, [barW = 180] columns wide. *)
Definition legend_hue (x : nat) : R :=
  let barW := 180 in
  let t := INR x / (barW - 1) in
  hue t.

(** ** Notions used to state what the agents keep *)

(** Every entry of the grid is a comfort value of [[0, 1]]. *)
Definition grid_unit (g : Grid) : Prop :=
  Forall (Forall (fun v => 0 <= v <= 1)) g.

(** The polyline through [tr] has no segment longer than [d]. *)
Fixpoint steps_within (d : R) (tr : list Point) : Prop :=
  match tr with
  | p :: (q :: _) as rest =>
      P5.dist (px p) (py p) (px q) (py q) <= d /\ steps_within d rest
  | _ => True
  end.

(** The cyclist is within the respawn margin of the canvas. *)
Definition in_margin (sk : Sketch) (c : Cyclist.t) : Prop :=
  -40 <= Cyclist.x c <= width sk + 40 /\
  -40 <= Cyclist.y c <= height sk + 40.

(** The trail is empty or ends at the cyclist's position. *)
Definition trail_ends_here (c : Cyclist.t) : Prop :=
  Cyclist.trail c = [] \/
  exists tr, Cyclist.trail c = tr ++ [mkPoint (Cyclist.x c) (Cyclist.y c)].

(** Every entry of the grid is the same value [k]. *)
Definition grid_const (k : R) (g : Grid) : Prop :=
  Forall (Forall (fun v => v = k)) g.

(** ** The sketch as a whole: setup, keyPressed and draw *)

(** [a[j] = v] on a JavaScript array, for an index up to [a.length]: an
    element is overwritten, and a write at [a.length] appends.  A write
    further out would leave holes; the loops of the sketch fill their
    arrays from index 0 upwards and never get there. *)
Definition array_set {A : Type} (a : list A) (j : nat) (v : A)
  : option (list A) :=
  if (j <? length a)%nat then Some (firstn j a ++ v :: skipn (S j) a)
  else if (j =? length a)%nat then Some (a ++ [v])
  else None.

(** One more iteration of a loop that may already have stopped on an
    error. *)
Definition and_then {A B : Type} (acc : option A) (k : A -> option B)
  : option B :=
  match acc with Some a => k a | None => None end.

(** [for (j = 0; j < n; j++) a[j] = f(j)]. *)
Definition write_loop {A : Type} (f : nat -> A) (n : nat) (a : list A)
  : option (list A) :=
  fold_left (fun acc j => and_then acc (fun a => array_set a j (f j)))
            (seq 0 n) (Some a).

(** [for (i = 0; i < n; i++) { ... g[i][...] = ... }]: the array [g[i]] is
    read (a [TypeError] if it is [undefined]) and [body i] updates it in
    place. *)
Definition update_loop {A : Type} (body : nat -> A -> option A) (n : nat)
  (g : list A) : option (list A) :=
  fold_left
    (fun acc i =>
       and_then acc (fun g =>
       and_then (nth_error g i) (fun col =>
       and_then (body i col) (fun col' => array_set g i col'))))
    (seq 0 n) (Some g).

(** [for (let c of cs) f(c)] for an effectful [f]. *)
Fixpoint for_of {A B : Type} (cs : list A) (f : A -> M B) : M (list B) :=
  match cs with
  | [] => ret []
  | c :: cs => c' <- f c ;; cs' <- for_of cs f ;; ret (c' :: cs')
  end.

(** [for (k = 0; k < n; k++) cs.push(make())]. *)
Fixpoint push_times {A : Type} (n : nat) (make : M A) (cs : list A)
  : M (list A) :=
  match n with
  | O => ret cs
  | S n => c <- make ;; push_times n make (cs ++ [c])
  end.

Module Runtime.

(** The globals that change while the sketch runs. *)
Record World : Type := mkWorld {
  weather : Weather;
  mode : Weather;
  comfortMap : Grid;
  cyclists : list Cyclist.t
}.

Definition numCyclists : nat := 12.

(** The loops of [setup] that build [comfortMap], starting from the empty
    array: [comfortMap[i] = []], then [comfortMap[i][j] = 0]. *)
Definition init_comfortMap (sk : Sketch) : option Grid :=
  fold_left
    (fun acc i =>
       and_then acc (fun g =>
       and_then (array_set g i []) (fun g =>
       and_then (nth_error g i) (fun col =>
       and_then (write_loop (fun _ => 0) (rows sk) col) (fun col' =>
       array_set g i col')))))
    (seq 0 (cols sk)) (Some []).

(** [setup], after the canvas and the eco-pods are fixed. *)
Definition setup (sk : Sketch) : M World :=
  comfortMap <- lift (init_comfortMap sk) ;;
  cyclists <- push_times numCyclists (Cyclist.new sk) [] ;;
  ret (mkWorld Sunny Sunny comfortMap cyclists).

(** [keyPressed], with [key] the key that was typed. *)
Definition keyPressed (key : String.string) (w : World) : World :=
  let weather := weather w in
  let weather := if String.eqb key "1"%string then Sunny else weather in
  let weather := if String.eqb key "2"%string then Rain else weather in
  let weather := if String.eqb key "3"%string then Heat else weather in
  mkWorld weather (mode w) (comfortMap w) (cyclists w).

(** [MapAgent.act] as it runs: the cells are written into the existing
    arrays of [comfortMap]. *)
Definition act_in_place (sk : Sketch) (mode : Weather) (frameCount : nat)
  (comfortMap : Grid) : option Grid :=
  update_loop
    (fun i col =>
       write_loop (fun j => MapAgent.cell_comfort sk mode frameCount i j)
                  (rows sk) col)
    (cols sk) comfortMap.

(** [draw]: the map agent perceives the weather, adopts it as its mode and
    rewrites the grid; then every cyclist perceives, decides and acts. *)
Definition draw (sk : Sketch) (frameCount : nat) (w : World) : M World :=
  let perception := weather w in
  let mode := perception in
  comfortMap <- lift (act_in_place sk mode frameCount (comfortMap w)) ;;
  cyclists <- for_of (cyclists w) (Cyclist.frame sk comfortMap) ;;
  ret (mkWorld (weather w) mode comfortMap cyclists).

(** The sketch from the first frame on: before each frame the keys typed
    since the last one are handled, then [draw] runs with the frame
    counter advanced by one. *)
Fixpoint run (sk : Sketch) (keys : list (list String.string))
  (frameCount : nat) (w : World) : M World :=
  match keys with
  | [] => ret w
  | typed :: keys =>
      let w := fold_left (fun w key => keyPressed key w) typed w in
      w <- draw sk (S frameCount) w ;;
      run sk keys (S frameCount) w
  end.

End Runtime.

(** What every frame keeps of a cyclist. *)
Definition cyclist_ok (sk : Sketch) (c : Cyclist.t) : Prop :=
  in_margin sk c /\ (length (Cyclist.trail c) <= 80)%nat
  /\ P5.mag (Cyclist.vel c) <= 2.0.

(** The weather a key selects, if it is one of the three keys. *)
Definition key_weather (key : String.string) : option Weather :=
  if String.eqb key "1"%string then Some Sunny
  else if String.eqb key "2"%string then Some Rain
  else if String.eqb key "3"%string then Some Heat
  else None.

(** The weather selected by the last of the three keys in [typed], or
    [w0] when none of them was typed. *)
Definition last_weather (w0 : Weather) (typed : list String.string)
  : Weather :=
  fold_left (fun w key => match key_weather key with
                          | Some w' => w'
                          | None => w
                          end) typed w0.

(** What every frame keeps of the globals. *)
Definition world_ok (sk : Sketch) (w : Runtime.World) : Prop :=
  length (Runtime.cyclists w) = Runtime.numCyclists /\
  grid_dims sk (Runtime.comfortMap w) /\
  grid_unit (Runtime.comfortMap w) /\
  Forall (cyclist_ok sk) (Runtime.cyclists w).

(** ** Runs of frames without a respawn *)

(** [appended sk c0 ps c]: the cyclist gets from state [c0] to state [c]
    by frames (perceive, decide, act, each on some grid and with some
    draws) in none of which the test of [act] asked for a respawn; [ps]
    lists, in order, the positions it had at the end of these frames. *)
Inductive appended (sk : Sketch) (c0 : Cyclist.t)
  : list Point -> Cyclist.t -> Prop :=
| appended_none : appended sk c0 [] c0
| appended_frame : forall ps c g s cp sp cd c' s',
    appended sk c0 ps c ->
    Cyclist.perceive sk g c s = Some (cp, sp) ->
    Cyclist.decide cp sp = Some (cd, s') ->
    Cyclist.must_respawn sk (Cyclist.moved cd) = false ->
    Cyclist.frame sk g c s = Some (c', s') ->
    appended sk c0 (ps ++ [mkPoint (Cyclist.x c') (Cyclist.y c')]) c'.

(** A grid of the shape of [sk] that holds [k] in every cell. *)
Definition flat_grid (sk : Sketch) (k : R) : Grid :=
  repeat (repeat k (rows sk)) (cols sk).

(** Draws that make a new cyclist start with velocity (0.5, 0): the
    fourth draw is 0.75, all others are 0.5. *)
Definition start_tape : Tape :=
  fun k => if (k =? 3)%nat then 0.75 else 0.5.

(** A cyclist just outside the right edge whose next move ends exactly on
    [x = 640], the right margin of the canvas of [setup]. *)
Definition margin_cyclist : Cyclist.t :=
  Cyclist.mk 639 450 (P5.createVector (4 / 3) 0) [] None None.

(** * Properties *)

(** ** Comparisons and clamping *)

Lemma Rltb_true a b : Rltb a b = true <-> a < b.
Proof. unfold Rltb; destruct (Rlt_dec a b); split; (easy || lra). Qed.

Lemma Rltb_false a b : Rltb a b = false <-> b <= a.
Proof. unfold Rltb; destruct (Rlt_dec a b); split; (easy || lra). Qed.

Lemma Rleb_true a b : Rleb a b = true <-> a <= b.
Proof. unfold Rleb; destruct (Rle_dec a b); split; (easy || lra). Qed.

Lemma Rleb_false a b : Rleb a b = false <-> b < a.
Proof. unfold Rleb; destruct (Rle_dec a b); split; (easy || lra). Qed.

Lemma constrain_bounds n low high :
  low <= high -> low <= P5.constrain n low high <= high.
Proof.
  intros Hlh. unfold P5.constrain, Rmax, Rmin.
  destruct (Rle_dec n high); destruct (Rle_dec _ low); lra.
Qed.

Lemma constrain_id n low high :
  low <= n <= high -> P5.constrain n low high = n.
Proof.
  intros Hn. unfold P5.constrain, Rmax, Rmin.
  destruct (Rle_dec n high); destruct (Rle_dec _ low); lra.
Qed.

Lemma constrain_below n low high :
  low <= high -> n <= low -> P5.constrain n low high = low.
Proof.
  intros Hlh Hn. unfold P5.constrain, Rmax, Rmin.
  destruct (Rle_dec n high); destruct (Rle_dec _ low); lra.
Qed.

Lemma constrain_mono n m low high :
  n <= m -> P5.constrain n low high <= P5.constrain m low high.
Proof.
  intros Hnm. unfold P5.constrain.
  apply Rle_max_compat_r, Rle_min_compat_r, Hnm.
Qed.

(** ** The grid written by the field-synthesis pass *)

Lemma grid_get_act sk mode frameCount i j :
  (i < cols sk)%nat -> (j < rows sk)%nat ->
  grid_get (MapAgent.act sk mode frameCount) i j
  = Some (MapAgent.cell_comfort sk mode frameCount i j).
Proof.
  intros Hi Hj. unfold grid_get, MapAgent.act.
  rewrite nth_error_map, nth_error_nth' with (d := 0%nat)
    by (rewrite length_seq; exact Hi).
  rewrite seq_nth by exact Hi. cbn [option_map].
  rewrite nth_error_map, nth_error_nth' with (d := 0%nat)
    by (rewrite length_seq; exact Hj).
  rewrite seq_nth by exact Hj. reflexivity.
Qed.

Lemma act_dims sk mode frameCount :
  grid_dims sk (MapAgent.act sk mode frameCount).
Proof.
  split.
  - unfold MapAgent.act. now rewrite length_map, length_seq.
  - unfold MapAgent.act. apply Forall_forall. intros col Hin.
    apply in_map_iff in Hin. destruct Hin as [i [<- _]].
    now rewrite length_map, length_seq.
Qed.

(** C1. After a field-synthesis pass, whatever the weather mode, the frame
    and the noise function of the sketch, every cell [(i, j)] of the grid
    holds a comfort value between 0 and 1 inclusive. *)
Theorem comfort_in_unit_interval sk mode frameCount i j :
  valid_sketch sk -> (i < cols sk)%nat -> (j < rows sk)%nat ->
  exists v, grid_get (MapAgent.act sk mode frameCount) i j = Some v
            /\ 0 <= v <= 1.
Proof.
  intros _ Hi Hj. eexists. split.
  - apply grid_get_act; assumption.
  - apply constrain_bounds. lra.
Qed.

Lemma valid_setup noise : valid_sketch (setup noise).
Proof. unfold valid_sketch; cbn. repeat split; (lia || lra). Qed.

Lemma comfort_in_unit_interval_witness :
  exists v, grid_get (MapAgent.act (setup (fun _ _ => 0.5)) Heat 1) 69 104
            = Some v /\ 0 <= v <= 1.
Proof.
  apply (comfort_in_unit_interval (setup (fun _ _ => 0.5)) Heat 1 69 104).
  - apply valid_setup.
  - cbn; lia.
  - cbn; lia.
Defined.

(** C7. In each of the three weather modes the coefficients of
    [(1 - temp)], [eco], [(1 - rain)] and [base] add up to exactly 1, and
    they are the coefficients the blend of that mode applies. *)
Theorem blend_weights_sum_to_one mode :
  let '(wt, we, wr, wb) := MapAgent.weights mode in
  wt + we + wr + wb = 1 /\
  forall temp eco rain base,
    MapAgent.blend mode temp eco rain base
    = wt * (1 - temp) + we * eco + wr * (1 - rain) + wb * base.
Proof.
  destruct mode; cbn; split; try lra; intros; reflexivity.
Qed.

(** ** The eco-pod term *)

Lemma eco_far sk x y :
  0 < width sk -> width sk * 0.4 <= MapAgent.minPod sk x y ->
  MapAgent.eco sk x y = 0.
Proof.
  intros Hw Hfar. unfold MapAgent.eco. apply constrain_below; [lra|].
  unfold P5.map. rewrite !Rminus_0_r.
  assert (Hq : 1 <= MapAgent.minPod sk x y / (width sk * 0.4)).
  { apply Rmult_le_reg_r with (r := width sk * 0.4); [lra|].
    unfold Rdiv. rewrite Rmult_assoc, Rinv_l by lra. lra. }
  lra.
Qed.

(** C9. With no eco-pod the minimum-distance search still returns (its
    sentinel 9999), the eco term is 0 at every position, and every cell of
    the pass is written with the blend taken at [eco = 0].  The sentinel
    lies beyond the reach [0.4 * width] of a pod for every canvas up to
    24997.5 wide, the 600 of [setup] among them. *)
Theorem empty_pods_eco_zero sk mode frameCount :
  valid_sketch sk -> width sk <= 24997.5 -> ecoPods sk = [] ->
  (forall x y, MapAgent.minPod sk x y = 9999 /\ MapAgent.eco sk x y = 0) /\
  (forall i j, (i < cols sk)%nat -> (j < rows sk)%nat ->
     let x := (INR i + 0.5) * cellW sk in
     let y := (INR j + 0.5) * cellH sk in
     grid_get (MapAgent.act sk mode frameCount) i j
     = Some (P5.constrain
               (MapAgent.blend mode (MapAgent.cell_temp sk j) 0
                  (MapAgent.cell_rain sk frameCount x y)
                  (noise sk (INR i * 0.08) (INR j * 0.08))) 0 1)).
Proof.
  intros (_ & _ & Hw & _) Hmax Hnil.
  assert (Hmin : forall x y, MapAgent.minPod sk x y = 9999).
  { intros x y. unfold MapAgent.minPod. now rewrite Hnil. }
  assert (Heco : forall x y, MapAgent.eco sk x y = 0).
  { intros x y. apply eco_far; [exact Hw|]. rewrite Hmin. lra. }
  split.
  - intros x y. split; [apply Hmin | apply Heco].
  - intros i j Hi Hj x y. rewrite grid_get_act by assumption.
    unfold MapAgent.cell_comfort, MapAgent.raw_comfort.
    fold x y. now rewrite Heco.
Qed.

Lemma empty_pods_eco_zero_witness :
  MapAgent.minPod (setup_without_pods (fun _ _ => 0)) 300 450 = 9999
  /\ MapAgent.eco (setup_without_pods (fun _ _ => 0)) 300 450 = 0.
Proof.
  refine (proj1 (empty_pods_eco_zero (setup_without_pods (fun _ _ => 0))
                   Sunny 1 _ _ _) 300 450).
  - unfold valid_sketch; cbn. repeat split; (lia || lra).
  - cbn; lra.
  - reflexivity.
Defined.

(** ** comfortAt *)

(** Flooring [u / (len / n)] for [0 <= u < len] lands on one of the [n]
    cells, the one that contains [u]; clamping leaves it alone. *)
Lemma cell_index (len u : R) (n : nat) :
  (0 < n)%nat -> 0 < len -> 0 <= u < len ->
  let k := Z.to_nat (P5.constrainZ (P5.floor (u / (len / INR n))) 0
                                   (Z.of_nat n - 1)) in
  (k < n)%nat /\
  Z.of_nat k = P5.floor (u / (len / INR n)) /\
  INR k * (len / INR n) <= u < (INR k + 1) * (len / INR n).
Proof.
  intros Hn Hlen Hu.
  assert (HnR : 0 < INR n) by now apply lt_0_INR.
  assert (Hc : 0 < len / INR n) by now apply Rdiv_lt_0_compat.
  set (q := u / (len / INR n)).
  assert (Hq : u = q * (len / INR n)).
  { unfold q. field. split; lra. }
  assert (Hq0 : 0 <= q).
  { unfold q. apply Rmult_le_pos; [lra|]. left. now apply Rinv_0_lt_compat. }
  assert (Hqn : q < INR n).
  { apply Rmult_lt_reg_r with (r := len / INR n); [exact Hc|].
    rewrite <- Hq. replace (INR n * (len / INR n)) with len by (field; lra).
    lra. }
  pose proof (Zfloor_bound q) as [Hlo Hhi].
  assert (Hf0 : (0 <= Zfloor q)%Z) by (apply Zfloor_lub; cbn; lra).
  assert (Hfn : (Zfloor q < Z.of_nat n)%Z).
  { apply lt_IZR. rewrite <- INR_IZR_INZ. lra. }
  unfold P5.floor, P5.constrainZ. fold q.
  rewrite Z.min_l, Z.max_l by lia.
  split; [lia|]. split; [lia|].
  rewrite INR_IZR_INZ, Z2Nat.id by lia.
  assert (H1 : IZR (Zfloor q) * (len / INR n) <= q * (len / INR n))
    by (apply Rmult_le_compat_r; lra).
  assert (H2 : q * (len / INR n) < (IZR (Zfloor q) + 1) * (len / INR n))
    by (apply Rmult_lt_compat_r; lra).
  lra.
Qed.

Lemma comfortAt_outside sk comfortMap x y :
  x < 0 \/ width sk <= x \/ y < 0 \/ height sk <= y ->
  comfortAt sk comfortMap x y = Some 0.
Proof.
  intros Hout. unfold comfortAt.
  assert (Hb : Rltb x 0 || Rleb (width sk) x || Rltb y 0
               || Rleb (height sk) y = true).
  { rewrite !orb_true_iff, !Rltb_true, !Rleb_true. tauto. }
  now rewrite Hb.
Qed.

Lemma comfortAt_inside sk comfortMap x y :
  0 <= x < width sk -> 0 <= y < height sk ->
  comfortAt sk comfortMap x y
  = grid_get comfortMap
      (Z.to_nat (P5.constrainZ (P5.floor (x / cellW sk)) 0
                               (Z.of_nat (cols sk) - 1)))
      (Z.to_nat (P5.constrainZ (P5.floor (y / cellH sk)) 0
                               (Z.of_nat (rows sk) - 1))).
Proof.
  intros Hx Hy. unfold comfortAt.
  assert (Hb : Rltb x 0 || Rleb (width sk) x || Rltb y 0
               || Rleb (height sk) y = false).
  { rewrite !orb_false_iff, !Rltb_false, !Rleb_false. lra. }
  now rewrite Hb.
Qed.

(** C2. Outside the playfield [[0, width) x [0, height)] the lookup
    returns exactly 0.  Inside, it returns the grid entry whose indices
    are the floors of [x / cellW] and [y / cellH] clamped to the index
    range; these name an existing cell, the one that contains [(x, y)]. *)
Theorem comfortAt_boundary_safe sk comfortMap x y :
  valid_sketch sk ->
  ((x < 0 \/ width sk <= x \/ y < 0 \/ height sk <= y) ->
   comfortAt sk comfortMap x y = Some 0) /\
  (0 <= x < width sk -> 0 <= y < height sk ->
   let i := Z.to_nat (P5.constrainZ (P5.floor (x / cellW sk)) 0
                                    (Z.of_nat (cols sk) - 1)) in
   let j := Z.to_nat (P5.constrainZ (P5.floor (y / cellH sk)) 0
                                    (Z.of_nat (rows sk) - 1)) in
   comfortAt sk comfortMap x y = grid_get comfortMap i j /\
   (i < cols sk)%nat /\ (j < rows sk)%nat /\
   INR i * cellW sk <= x < (INR i + 1) * cellW sk /\
   INR j * cellH sk <= y < (INR j + 1) * cellH sk).
Proof.
  intros (Hc & Hr & Hw & Hh). split.
  - apply comfortAt_outside.
  - intros Hx Hy i j.
    split; [now apply comfortAt_inside|].
    destruct (cell_index (width sk) x (cols sk) Hc Hw Hx) as (Hi & _ & Hxi).
    destruct (cell_index (height sk) y (rows sk)) as (Hj & _ & Hyj);
      [lia | exact Hh | exact Hy |].
    repeat split; (assumption || apply Hxi || apply Hyj).
Qed.

Lemma comfortAt_boundary_safe_witness :
  let sk := setup (fun _ _ => 0) in
  let g := MapAgent.act sk Sunny 1 in
  comfortAt sk g (-1) 450 = Some 0 /\
  exists i j, comfortAt sk g 300 450 = grid_get g i j
              /\ (i < 70)%nat /\ (j < 105)%nat.
Proof.
  intros sk g.
  assert (Hv : valid_sketch sk) by apply valid_setup.
  split.
  - apply (comfortAt_boundary_safe sk g (-1) 450 Hv). left. lra.
  - destruct (comfortAt_boundary_safe sk g 300 450 Hv) as [_ Hin].
    destruct Hin as (Heq & Hi & Hj & _); [cbn; lra | cbn; lra |].
    eexists. eexists. split; [exact Heq|]. split; [exact Hi | exact Hj].
Defined.

Lemma floor_0 : P5.floor 0 = 0%Z.
Proof. apply Zfloor_eq. cbn. lra. Qed.

Lemma constrainZ_0 (n : nat) :
  (0 < n)%nat -> Z.to_nat (P5.constrainZ 0 0 (Z.of_nat n - 1)) = 0%nat.
Proof. intros Hn. unfold P5.constrainZ. lia. Qed.

(** C10. The out-of-bounds test is asymmetric.  On the right and bottom
    edges ([x = width], [y = height]) the lookup returns the sentinel 0,
    whatever the other coordinate; on the left and top edges ([x = 0],
    [y = 0], the other coordinate inside) it reads the grid, in column 0
    and row 0 respectively. *)
Theorem comfortAt_edges_asymmetric sk comfortMap :
  valid_sketch sk ->
  (forall y, comfortAt sk comfortMap (width sk) y = Some 0) /\
  (forall x, comfortAt sk comfortMap x (height sk) = Some 0) /\
  (forall y, 0 <= y < height sk ->
     comfortAt sk comfortMap 0 y
     = grid_get comfortMap 0
         (Z.to_nat (P5.constrainZ (P5.floor (y / cellH sk)) 0
                                  (Z.of_nat (rows sk) - 1)))) /\
  (forall x, 0 <= x < width sk ->
     comfortAt sk comfortMap x 0
     = grid_get comfortMap
         (Z.to_nat (P5.constrainZ (P5.floor (x / cellW sk)) 0
                                  (Z.of_nat (cols sk) - 1))) 0).
Proof.
  intros (Hc & Hr & Hw & Hh).
  assert (Hz : forall d, 0 / d = 0) by (intros d; unfold Rdiv; ring).
  repeat split.
  - intros y. apply comfortAt_outside. lra.
  - intros x. apply comfortAt_outside. lra.
  - intros y Hy. rewrite comfortAt_inside by lra.
    rewrite Hz, floor_0, constrainZ_0 by exact Hc. reflexivity.
  - intros x Hx. rewrite comfortAt_inside by lra.
    rewrite Hz, floor_0, constrainZ_0 by lia. reflexivity.
Qed.

Lemma comfortAt_edges_asymmetric_witness :
  let sk := setup (fun _ _ => 0) in
  let g := MapAgent.act sk Sunny 1 in
  comfortAt sk g 600 450 = Some 0 /\
  comfortAt sk g 300 900 = Some 0 /\
  comfortAt sk g 0 0 = grid_get g 0 0.
Proof.
  intros sk g.
  destruct (comfortAt_edges_asymmetric sk g (valid_setup _))
    as (Hr & Hb & Hl & _).
  split; [apply (Hr 450)|]. split; [apply (Hb 300)|].
  rewrite (Hl 0) by (cbn; lra).
  replace (0 / cellH sk) with 0 by (unfold Rdiv; ring).
  rewrite floor_0. reflexivity.
Defined.

(** ** Vectors and the speed limit *)

Lemma mag_nonneg v : 0 <= P5.mag v.
Proof. apply sqrt_pos. Qed.

Lemma mag_mult v n : P5.mag (P5.mult v n) = Rabs n * P5.mag v.
Proof.
  unfold P5.mag, P5.mult; cbn.
  replace (P5.vx v * n * (P5.vx v * n) + P5.vy v * n * (P5.vy v * n))
    with (Rsqr n * (P5.vx v * P5.vx v + P5.vy v * P5.vy v))
    by (unfold Rsqr; ring).
  rewrite sqrt_mult_alt by apply Rle_0_sqr.
  now rewrite sqrt_Rsqr_abs.
Qed.

Lemma mag_normalize v : P5.mag v <> 0 -> P5.mag (P5.normalize v) = 1.
Proof.
  intros Hne. unfold P5.normalize.
  destruct (Req_dec_T (P5.mag v) 0) as [He | _]; [contradiction|].
  pose proof (mag_nonneg v) as Hpos.
  rewrite mag_mult, Rabs_right.
  - field. exact Hne.
  - apply Rle_ge. left. apply Rdiv_lt_0_compat; lra.
Qed.

Lemma limit_capped v : P5.mag (Cyclist.limit v) <= Cyclist.maxSpeed.
Proof.
  unfold Cyclist.limit.
  destruct (Rltb Cyclist.maxSpeed (P5.mag v)) eqn:Hfast.
  - apply Rltb_true in Hfast. unfold Cyclist.maxSpeed in *.
    rewrite mag_mult, mag_normalize by lra.
    rewrite Rabs_right by lra. lra.
  - now apply Rltb_false in Hfast.
Qed.

Lemma decide_runs c g s :
  Cyclist.perceivedGradient c = Some g ->
  exists c' s',
    Cyclist.decide c s = Some (c', s') /\
    Cyclist.x c' = Cyclist.x c /\ Cyclist.y c' = Cyclist.y c /\
    Cyclist.trail c' = Cyclist.trail c /\
    Cyclist.localComfort c' = Cyclist.localComfort c /\
    Cyclist.vel c'
    = steer (Cyclist.vel c)
        (if Rltb (P5.mag g) 0.0005
         then P5.createVector (s 0%nat * (0.5 - -0.5) + -0.5)
                              (s 1%nat * (0.5 - -0.5) + -0.5)
         else g).
Proof.
  intros Hg. unfold Cyclist.decide. rewrite Hg.
  unfold bind, lift, ret, random_range, rand; cbn.
  destruct (Rltb (P5.mag g) 0.0005); cbn;
    eexists; eexists; (split; [reflexivity|]); repeat split.
Qed.

(** C3. Every velocity update of [decide] ends with a speed of at most
    the cap 2.0.  This covers the flat case, where the gradient is shorter
    than 0.0005 and two draws of [random(-0.5, 0.5)] replace it. *)
Theorem decide_speed_capped c g s :
  Cyclist.perceivedGradient c = Some g ->
  exists c' s',
    Cyclist.decide c s = Some (c', s') /\
    P5.mag (Cyclist.vel c') <= 2.0 /\
    (P5.mag g < 0.0005 ->
     Cyclist.vel c'
     = steer (Cyclist.vel c)
         (P5.createVector (s 0%nat - 0.5) (s 1%nat - 0.5))).
Proof.
  intros Hg.
  destruct (decide_runs c g s Hg) as (c' & s' & Hrun & _ & _ & _ & _ & Hvel).
  exists c', s'. split; [exact Hrun|]. split.
  - rewrite Hvel. apply limit_capped.
  - intros Hflat. apply Rltb_true in Hflat. rewrite Hvel, Hflat.
    f_equal. f_equal; lra.
Qed.

Lemma decide_speed_capped_witness :
  exists c' s',
    Cyclist.decide flat_cyclist (fun _ => 0.5) = Some (c', s')
    /\ P5.mag (Cyclist.vel c') <= 2.0.
Proof.
  destruct (decide_speed_capped flat_cyclist (P5.createVector 0 0)
              (fun _ => 0.5) eq_refl) as (c' & s' & Hrun & Hcap & _).
  exists c', s'. split; [exact Hrun | exact Hcap].
Defined.

(** ** The respawn test of act *)

Lemma must_respawn_true sk c :
  Cyclist.must_respawn sk c = true <->
  Cyclist.x c < -40 \/ width sk + 40 < Cyclist.x c \/
  Cyclist.y c < -40 \/ height sk + 40 < Cyclist.y c \/
  Cyclist.lt_undef (Cyclist.localComfort c) 0.18 = true.
Proof.
  unfold Cyclist.must_respawn.
  rewrite !orb_true_iff, !Rltb_true. tauto.
Qed.

Lemma must_respawn_false sk c :
  Cyclist.must_respawn sk c = false <->
  -40 <= Cyclist.x c <= width sk + 40 /\
  -40 <= Cyclist.y c <= height sk + 40 /\
  Cyclist.lt_undef (Cyclist.localComfort c) 0.18 = false.
Proof.
  unfold Cyclist.must_respawn.
  rewrite !orb_false_iff, !Rltb_false. tauto.
Qed.

Lemma act_stays sk c s :
  Cyclist.must_respawn sk (Cyclist.moved c) = false ->
  Cyclist.act sk c s = Some (Cyclist.moved c, s).
Proof. intros Hno. unfold Cyclist.act. now rewrite Hno. Qed.

Lemma act_respawns sk c s :
  Cyclist.must_respawn sk (Cyclist.moved c) = true ->
  Cyclist.act sk c s = Cyclist.respawn sk (Cyclist.moved c) s.
Proof. intros Hyes. unfold Cyclist.act. now rewrite Hyes. Qed.

(** ** Running respawn, perceive and act *)

Lemma respawn_inv sk c s c' s' :
  Cyclist.respawn sk c s = Some (c', s') ->
  exists p,
    nth_error (ecoPods sk)
      (Z.to_nat (P5.floor (s 0%nat * INR (length (ecoPods sk))))) = Some p /\
    c' = Cyclist.mk
           (px p + cos (s 1%nat * P5.TWO_PI) * (s 2%nat * (60 - 10) + 10))
           (py p + sin (s 1%nat * P5.TWO_PI) * (s 2%nat * (60 - 10) + 10))
           (P5.createVector (s 3%nat * (1 - -1) + -1) (s 4%nat * (1 - -1) + -1))
           [] (Cyclist.perceivedGradient c) (Cyclist.localComfort c) /\
    s' = (fun k => s (5 + k)%nat).
Proof.
  unfold Cyclist.respawn, bind, lift, ret, random_of, random_max,
    random_range, rand, fail; cbn.
  destruct (nth_error _ _) as [p|]; [|discriminate].
  intros H. injection H as <- <-. exists p. repeat split.
Qed.

Lemma respawn_runs sk c s p :
  nth_error (ecoPods sk)
    (Z.to_nat (P5.floor (s 0%nat * INR (length (ecoPods sk))))) = Some p ->
  exists c' s', Cyclist.respawn sk c s = Some (c', s').
Proof.
  intros Hp.
  unfold Cyclist.respawn, bind, lift, ret, random_of, random_max,
    random_range, rand, fail; cbn.
  rewrite Hp. eexists. eexists. reflexivity.
Qed.

Lemma perceive_inv sk g c s c' s' :
  Cyclist.perceive sk g c s = Some (c', s') ->
  Cyclist.x c' = Cyclist.x c /\ Cyclist.y c' = Cyclist.y c /\
  Cyclist.vel c' = Cyclist.vel c /\ Cyclist.trail c' = Cyclist.trail c /\
  Cyclist.localComfort c' = comfortAt sk g (Cyclist.x c) (Cyclist.y c) /\
  (exists grad, Cyclist.perceivedGradient c' = Some grad) /\
  s' = s.
Proof.
  unfold Cyclist.perceive, bind, lift, ret, fail.
  destruct (comfortAt sk g (Cyclist.x c) (Cyclist.y c)); [|discriminate].
  destruct (comfortAt sk g (Cyclist.x c + 10) (Cyclist.y c)); [|discriminate].
  destruct (comfortAt sk g (Cyclist.x c - 10) (Cyclist.y c)); [|discriminate].
  destruct (comfortAt sk g (Cyclist.x c) (Cyclist.y c - 10)); [|discriminate].
  destruct (comfortAt sk g (Cyclist.x c) (Cyclist.y c + 10)); [|discriminate].
  intros H. injection H as <- <-. cbn. repeat split. eexists. reflexivity.
Qed.

Lemma decide_inv c s c' s' :
  Cyclist.decide c s = Some (c', s') ->
  Cyclist.x c' = Cyclist.x c /\ Cyclist.y c' = Cyclist.y c /\
  Cyclist.trail c' = Cyclist.trail c /\
  Cyclist.localComfort c' = Cyclist.localComfort c.
Proof.
  intros Hrun.
  destruct (Cyclist.perceivedGradient c) as [g|] eqn:Hg.
  - destruct (decide_runs c g s Hg) as (c1 & s1 & Hrun1 & Hx & Hy & Ht & Hl & _).
    rewrite Hrun1 in Hrun. injection Hrun as <- <-. tauto.
  - unfold Cyclist.decide in Hrun. rewrite Hg in Hrun. discriminate.
Qed.

(** ** The trail *)

Lemma trail_push_length tr p :
  (length tr <= 80)%nat -> (length (Cyclist.trail_push tr p) <= 80)%nat.
Proof.
  intros Hlen. unfold Cyclist.trail_push.
  destruct (80 <? length (tr ++ [p]))%nat eqn:Hfull.
  - destruct (tr ++ [p]) eqn:Happ; cbn; [lia|].
    assert (Hl : length (tr ++ [p]) = S (length l)) by now rewrite Happ.
    rewrite length_app in Hl. cbn in Hl. lia.
  - apply Nat.ltb_ge in Hfull. exact Hfull.
Qed.

(** Below capacity an append keeps everything; at capacity it drops the
    head. *)
Lemma trail_push_room tr p :
  (length tr < 80)%nat -> Cyclist.trail_push tr p = tr ++ [p].
Proof.
  intros Hlen. unfold Cyclist.trail_push.
  replace (80 <? length (tr ++ [p]))%nat with false; [reflexivity|].
  symmetry. apply Nat.ltb_ge. rewrite length_app. cbn. lia.
Qed.

Lemma trail_push_full tr p :
  (80 <= length tr)%nat -> Cyclist.trail_push tr p = tl (tr ++ [p]).
Proof.
  intros Hlen. unfold Cyclist.trail_push.
  replace (80 <? length (tr ++ [p]))%nat with true; [reflexivity|].
  symmetry. apply Nat.ltb_lt. rewrite length_app. cbn. lia.
Qed.

(** A run of appends keeps the last 80 entries of the whole history. *)
Lemma trail_push_all es : forall tr,
  (length tr <= 80)%nat ->
  fold_left Cyclist.trail_push es tr
  = skipn (length (tr ++ es) - 80) (tr ++ es).
Proof.
  induction es as [|e es IH]; intros tr Hlen; cbn [fold_left].
  - rewrite app_nil_r. replace (length tr - 80)%nat with 0%nat by lia.
    reflexivity.
  - rewrite IH by now apply trail_push_length.
    destruct (Nat.lt_ge_cases (length tr) 80) as [Hroom | Hfull].
    + rewrite trail_push_room by exact Hroom.
      now rewrite <- app_assoc.
    + assert (Heq : length tr = 80%nat) by lia.
      rewrite trail_push_full by exact Hfull.
      destruct tr as [|t0 tr]; [cbn in Heq; lia|].
      cbn [app tl]. rewrite <- app_assoc. cbn [app].
      cbn [length]. rewrite !length_app. cbn [length].
      replace (S (length tr + S (length es)) - 80)%nat
        with (S (length tr + (1 + length es) - 80))%nat by (cbn in Heq; lia).
      cbn [skipn]. reflexivity.
Qed.

Lemma act_trail sk c s c' s' :
  (length (Cyclist.trail c) <= 80)%nat ->
  Cyclist.act sk c s = Some (c', s') ->
  (length (Cyclist.trail c') <= 80)%nat.
Proof.
  intros Hlen. unfold Cyclist.act.
  destruct (Cyclist.must_respawn sk (Cyclist.moved c)).
  - intros Hrun. apply respawn_inv in Hrun.
    destruct Hrun as (p & _ & -> & _). cbn. lia.
  - unfold ret. intros H. injection H as <- <-. cbn.
    now apply trail_push_length.
Qed.

Lemma reachable_trail sk c :
  Cyclist.reachable sk c -> (length (Cyclist.trail c) <= 80)%nat.
Proof.
  induction 1 as [s c s' Hnew | g s c c' s' Hreach IH Hframe].
  - apply respawn_inv in Hnew. destruct Hnew as (p & _ & -> & _). cbn. lia.
  - unfold Cyclist.frame, bind in Hframe.
    destruct (Cyclist.perceive sk g c s) as [[c1 s1]|] eqn:Hp; [|discriminate].
    destruct (Cyclist.decide c1 s1) as [[c2 s2]|] eqn:Hd; [|discriminate].
    apply perceive_inv in Hp. destruct Hp as (_ & _ & _ & Ht1 & _).
    apply decide_inv in Hd. destruct Hd as (_ & _ & Ht2 & _).
    apply (act_trail sk c2 s2 c' s'); [|exact Hframe].
    rewrite Ht2, Ht1. exact IH.
Qed.

Lemma new_runs_setup noise :
  exists c s', Cyclist.new (setup noise) (fun _ => 0) = Some (c, s').
Proof.
  apply respawn_runs with (p := mkPoint (600 * 0.3) (900 * 0.25)).
  rewrite Rmult_0_l, floor_0. reflexivity.
Qed.

(** ** Respawn *)

Lemma random_range_bounds u lo hi :
  0 <= u < 1 -> lo < hi -> lo <= u * (hi - lo) + lo < hi.
Proof. intros Hu Hlh. nra. Qed.

(** [random(array)] on a non-empty array picks one of its elements. *)
Lemma random_pick {A : Type} (l : list A) (u : R) :
  l <> [] -> 0 <= u < 1 ->
  exists a, nth_error l (Z.to_nat (P5.floor (u * INR (length l)))) = Some a
            /\ In a l.
Proof.
  intros Hne Hu.
  assert (Hn : (0 < length l)%nat) by (destruct l; [contradiction | cbn; lia]).
  assert (HnR : 0 < INR (length l)) by now apply lt_0_INR.
  set (q := u * INR (length l)).
  assert (Hq : 0 <= q < INR (length l)) by (unfold q; nra).
  pose proof (Zfloor_bound q) as [Hlo Hhi].
  assert (Hf0 : (0 <= Zfloor q)%Z) by (apply Zfloor_lub; cbn; lra).
  assert (Hfn : (Zfloor q < Z.of_nat (length l))%Z).
  { apply lt_IZR. rewrite <- INR_IZR_INZ. lra. }
  unfold P5.floor.
  destruct (nth_error l (Z.to_nat (Zfloor q))) as [a|] eqn:Hnth.
  - exists a. split; [reflexivity|]. eapply nth_error_In, Hnth.
  - apply nth_error_None in Hnth. lia.
Qed.

(** A point at polar offset [(angle, radius)] from a pod is [radius] away. *)
Lemma dist_polar cx cy angle radius :
  0 <= radius ->
  P5.dist (cx + cos angle * radius) (cy + sin angle * radius) cx cy = radius.
Proof.
  intros Hr. unfold P5.dist, P5.sq.
  replace ((cx - (cx + cos angle * radius)) * (cx - (cx + cos angle * radius))
           + (cy - (cy + sin angle * radius)) * (cy - (cy + sin angle * radius)))
    with ((Rsqr (sin angle) + Rsqr (cos angle)) * (radius * radius))
    by (unfold Rsqr; ring).
  rewrite sin2_cos2, Rmult_1_l. now apply sqrt_square.
Qed.

Lemma polar_offset_bounded (f radius : R) :
  -1 <= f <= 1 -> 0 <= radius -> - radius <= f * radius <= radius.
Proof. intros Hf Hr. nra. Qed.

Lemma pods_inside_setup noise : pods_inside (setup noise).
Proof.
  intros p Hin. cbn in Hin.
  destruct Hin as [<- | [<- | [<- | [<- | []]]]]; cbn; lra.
Qed.

(** ** The 4 x 4 scenario *)

Lemma rain_unit sk frameCount x y :
  0 < MapAgent.cell_rain sk frameCount x y <= 1.
Proof.
  unfold MapAgent.cell_rain. split; [apply exp_pos|].
  rewrite <- exp_0.
  destruct (Req_dec (P5.sq (P5.dist x y (MapAgent.rainCx sk frameCount)
                              (MapAgent.rainCy sk frameCount)
                            / MapAgent.rainRadius sk)) 0) as [Hz | Hnz].
  - rewrite Hz, Ropp_0. lra.
  - left. apply exp_increasing.
    assert (H := Rle_0_sqr (P5.dist x y (MapAgent.rainCx sk frameCount)
                              (MapAgent.rainCy sk frameCount)
                            / MapAgent.rainRadius sk)).
    unfold Rsqr in H. unfold P5.sq in *. lra.
Qed.

(** The squared, scaled distance under the exponential of the rain term. *)
Lemma sq_dist_scaled x y cx cy r :
  r <> 0 ->
  P5.sq (P5.dist x y cx cy / r)
  = ((cx - x) * (cx - x) + (cy - y) * (cy - y)) / (r * r).
Proof.
  intros Hr. unfold P5.dist, P5.sq.
  replace (sqrt ((cx - x) * (cx - x) + (cy - y) * (cy - y)) / r
           * (sqrt ((cx - x) * (cx - x) + (cy - y) * (cy - y)) / r))
    with (sqrt ((cx - x) * (cx - x) + (cy - y) * (cy - y))
          * sqrt ((cx - x) * (cx - x) + (cy - y) * (cy - y)) / (r * r))
    by (field; exact Hr).
  rewrite sqrt_sqrt; [reflexivity|].
  pose proof (Rle_0_sqr (cx - x)). pose proof (Rle_0_sqr (cy - y)).
  unfold Rsqr in *. lra.
Qed.

(** In one row, the cell whose centre is farther from the rain cloud's
    column gets strictly less rain. *)
Lemma rain_farther sk frameCount x x' y :
  0 < width sk ->
  Rsqr (MapAgent.rainCx sk frameCount - x)
  < Rsqr (MapAgent.rainCx sk frameCount - x') ->
  MapAgent.cell_rain sk frameCount x' y < MapAgent.cell_rain sk frameCount x y.
Proof.
  intros Hw Hfar. unfold MapAgent.cell_rain. apply exp_increasing.
  assert (Hr : MapAgent.rainRadius sk <> 0)
    by (unfold MapAgent.rainRadius; lra).
  rewrite !sq_dist_scaled by exact Hr.
  apply Ropp_lt_contravar. unfold Rdiv. apply Rmult_lt_compat_r.
  - apply Rinv_0_lt_compat.
    assert (H := Rsqr_pos_lt _ Hr). unfold Rsqr in H. exact H.
  - unfold Rsqr in Hfar. lra.
Qed.

Lemma dist_ge_dy x y cx cy : Rabs (cy - y) <= P5.dist x y cx cy.
Proof.
  unfold P5.dist, P5.sq. rewrite <- sqrt_Rsqr_abs.
  apply sqrt_le_1_alt. pose proof (Rle_0_sqr (cx - x)) as H.
  unfold Rsqr in *. lra.
Qed.

Lemma minPod_single sk p x y :
  ecoPods sk = [p] ->
  MapAgent.minPod sk x y = Rmin (P5.dist x y (px p) (py p)) 9999.
Proof.
  intros Hp. unfold MapAgent.minPod. rewrite Hp. cbn.
  unfold Rmin, Rltb.
  destruct (Rlt_dec _ 9999); destruct (Rle_dec _ 9999); lra.
Qed.

Lemma cell_x_sketch4 :
  cell_x sketch4 0 = 75 /\ cell_x sketch4 1 = 225 /\
  cell_x sketch4 2 = 375 /\ cell_x sketch4 3 = 525.
Proof. unfold cell_x, cellW; cbn. repeat split; lra. Qed.

(** Row 0 of the scenario lies beyond the reach of the pod: the comfort
    there is the rain term alone. *)
Lemma sketch4_row0 frameCount i :
  MapAgent.cell_comfort sketch4 Sunny frameCount i 0
  = 0.20 * (1 - MapAgent.cell_rain sketch4 frameCount
                  (cell_x sketch4 i) (cell_y sketch4 0)).
Proof.
  unfold MapAgent.cell_comfort, MapAgent.raw_comfort.
  fold (cell_x sketch4 i). fold (cell_y sketch4 0).
  assert (Heco : MapAgent.eco sketch4 (cell_x sketch4 i) (cell_y sketch4 0) = 0).
  { apply eco_far; [cbn; lra|].
    rewrite (minPod_single sketch4 (mkPoint 300 450)) by reflexivity.
    pose proof (dist_ge_dy (cell_x sketch4 i) (cell_y sketch4 0) 300 450) as Hd.
    assert (Hy : cell_y sketch4 0 = 112.5) by (unfold cell_y, cellH; cbn; lra).
    rewrite Hy in *. rewrite Rabs_right in Hd by lra.
    cbn [px py width sketch4]. unfold Rmin.
    destruct (Rle_dec _ 9999); lra. }
  assert (Htemp : MapAgent.cell_temp sketch4 0 = 1).
  { unfold MapAgent.cell_temp, P5.map; cbn. lra. }
  rewrite Heco, Htemp. cbn [MapAgent.blend noise sketch4].
  pose proof (rain_unit sketch4 frameCount (cell_x sketch4 i) (cell_y sketch4 0)).
  rewrite constrain_id; lra.
Qed.

(** At the first frame the rain cloud sits right of the centre column. *)
Lemma rainCx_sketch4_frame1 : 300 < MapAgent.rainCx sketch4 1.
Proof.
  unfold MapAgent.rainCx, MapAgent.t; cbn.
  assert (Hs : 0 < sin (1 * 0.01 * 0.7)).
  { apply sin_gt_0; [lra|]. pose proof PI2_1. lra. }
  lra.
Qed.

(** C8, as stated, fails.  In row 0 of the scenario the eco term is 0 in
    every cell, so the comfort is [0.20 * (1 - rain)]; at frame 1 the outer
    cell of column 0 is farther from the rain cloud than the inner cell of
    column 1 and is strictly more comfortable. *)
Lemma row_monotone_counterexample :
  Rabs (cell_x sketch4 1 - width sketch4 / 2)
  <= Rabs (cell_x sketch4 0 - width sketch4 / 2) /\
  MapAgent.cell_comfort sketch4 Sunny 1 1 0
  < MapAgent.cell_comfort sketch4 Sunny 1 0 0 /\
  ~ row_nonincreasing sketch4 Sunny 1.
Proof.
  destruct cell_x_sketch4 as (Hx0 & Hx1 & _).
  assert (Habs : Rabs (cell_x sketch4 1 - width sketch4 / 2)
                 <= Rabs (cell_x sketch4 0 - width sketch4 / 2)).
  { rewrite Hx0, Hx1. cbn [width sketch4].
    rewrite !Rabs_left by lra. lra. }
  assert (Hlt : MapAgent.cell_comfort sketch4 Sunny 1 1 0
                < MapAgent.cell_comfort sketch4 Sunny 1 0 0).
  { rewrite !sketch4_row0, Hx0, Hx1.
    pose proof rainCx_sketch4_frame1 as Hcx.
    assert (Hrain : MapAgent.cell_rain sketch4 1 75 (cell_y sketch4 0)
                    < MapAgent.cell_rain sketch4 1 225 (cell_y sketch4 0)).
    { apply rain_farther; [cbn; lra|]. unfold Rsqr. nra. }
    lra. }
  split; [exact Habs|]. split; [exact Hlt|].
  intros Hmono.
  specialize (Hmono 1%nat 0%nat 0%nat). cbn [cols rows sketch4] in Hmono.
  specialize (Hmono ltac:(lia) ltac:(lia) ltac:(lia) Habs). lra.
Qed.

(** ** What does decrease away from the pod *)

Lemma eco_single_pod_mono sk p x y x' y' :
  0 < width sk -> ecoPods sk = [p] ->
  P5.dist x y (px p) (py p) <= P5.dist x' y' (px p) (py p) ->
  MapAgent.eco sk x' y' <= MapAgent.eco sk x y.
Proof.
  intros Hw Hp Hd. unfold MapAgent.eco. apply constrain_mono.
  rewrite !(minPod_single sk p) by exact Hp.
  unfold P5.map. rewrite !Rminus_0_r.
  assert (Hmin : Rmin (P5.dist x y (px p) (py p)) 9999
                 <= Rmin (P5.dist x' y' (px p) (py p)) 9999)
    by (apply Rle_min_compat_r; exact Hd).
  assert (Hq : Rmin (P5.dist x y (px p) (py p)) 9999 / (width sk * 0.4)
               <= Rmin (P5.dist x' y' (px p) (py p)) 9999 / (width sk * 0.4)).
  { unfold Rdiv. apply Rmult_le_compat_r; [|exact Hmin].
    left. apply Rinv_0_lt_compat. lra. }
  lra.
Qed.

Lemma dist_row_mono x x' y cx cy :
  Rabs (x - cx) <= Rabs (x' - cx) ->
  P5.dist x y cx cy <= P5.dist x' y cx cy.
Proof.
  intros Habs. unfold P5.dist, P5.sq. apply sqrt_le_1_alt.
  assert (H : Rsqr (x - cx) <= Rsqr (x' - cx)) by now apply Rsqr_le_abs_1.
  unfold Rsqr in H. lra.
Qed.

Lemma blend_eco_mono mode temp e e' r base :
  e' <= e ->
  MapAgent.blend mode temp e' r base <= MapAgent.blend mode temp e r base.
Proof. intros He. destruct mode; cbn; lra. Qed.

(** C8, amended. In the scenario (4 x 4 grid, one eco-pod at the centre,
    Sunny, noise constantly 0) the eco term of a cell does not increase as
    the cell moves away from the centre column within a row, and neither
    does the comfort value once the rain term is held at any one value
    [r].  The comfort value itself is not monotone, because the rain term
    changes along the row. *)
Theorem eco_nonincreasing_in_row i i' j r :
  (i < cols sketch4)%nat -> (i' < cols sketch4)%nat -> (j < rows sketch4)%nat ->
  Rabs (cell_x sketch4 i - width sketch4 / 2)
  <= Rabs (cell_x sketch4 i' - width sketch4 / 2) ->
  let x := cell_x sketch4 i in
  let x' := cell_x sketch4 i' in
  let y := cell_y sketch4 j in
  let temp := MapAgent.cell_temp sketch4 j in
  let base := noise sketch4 (INR i * 0.08) (INR j * 0.08) in
  let base' := noise sketch4 (INR i' * 0.08) (INR j * 0.08) in
  MapAgent.eco sketch4 x' y <= MapAgent.eco sketch4 x y /\
  P5.constrain (MapAgent.blend Sunny temp (MapAgent.eco sketch4 x' y) r base') 0 1
  <= P5.constrain (MapAgent.blend Sunny temp (MapAgent.eco sketch4 x y) r base) 0 1.
Proof.
  intros _ _ _ Habs x x' y temp base base'.
  assert (Heco : MapAgent.eco sketch4 x' y <= MapAgent.eco sketch4 x y).
  { apply (eco_single_pod_mono sketch4 (mkPoint 300 450));
      [cbn; lra | reflexivity |].
    apply dist_row_mono. cbn [px].
    replace 300 with (width sketch4 / 2) by (cbn; lra). exact Habs. }
  split; [exact Heco|].
  apply constrain_mono. unfold base, base'. cbn [noise sketch4].
  now apply blend_eco_mono.
Qed.

Lemma eco_nonincreasing_in_row_witness :
  MapAgent.eco sketch4 (cell_x sketch4 0) (cell_y sketch4 1)
  <= MapAgent.eco sketch4 (cell_x sketch4 1) (cell_y sketch4 1).
Proof.
  refine (proj1 (eco_nonincreasing_in_row 1 0 1 0 _ _ _ _)).
  - cbn; lia.
  - cbn; lia.
  - cbn; lia.
  - destruct cell_x_sketch4 as (Hx0 & Hx1 & _).
    rewrite Hx0, Hx1. cbn [width sketch4].
    rewrite !Rabs_left by lra. lra.
Defined.

(** ** The comfort around an eco-pod *)

Lemma minPod_fold_le x y (pods : list Point) : forall m,
  fold_left (fun m p => let dp := P5.dist x y (px p) (py p) in
                        if Rltb dp m then dp else m) pods m <= m.
Proof.
  induction pods as [|q pods IH]; intros m; cbn [fold_left]; [lra|].
  eapply Rle_trans; [apply IH|]. cbn zeta.
  destruct (Rltb _ m) eqn:Hlt; [apply Rltb_true in Hlt|]; lra.
Qed.

(** The search returns at most the distance to each pod. *)
Lemma minPod_le sk x y p :
  In p (ecoPods sk) -> MapAgent.minPod sk x y <= P5.dist x y (px p) (py p).
Proof.
  unfold MapAgent.minPod. generalize 9999.
  induction (ecoPods sk) as [|q pods IH]; intros m Hin; [contradiction|].
  cbn [fold_left]. destruct Hin as [-> | Hin]; [|now apply IH].
  eapply Rle_trans; [apply minPod_fold_le|]. cbn zeta.
  destruct (Rltb _ m) eqn:Hlt; [|apply Rltb_false in Hlt]; lra.
Qed.

Lemma eco_near sk x y p d :
  0 < width sk -> In p (ecoPods sk) ->
  P5.dist x y (px p) (py p) <= d -> d <= width sk * 0.4 ->
  1 - d / (width sk * 0.4) <= MapAgent.eco sk x y.
Proof.
  intros Hw Hin Hd Hreach.
  pose proof (minPod_le sk x y p Hin) as Hmin.
  assert (Hd0 : 0 <= d).
  { eapply Rle_trans; [|exact Hd]. apply sqrt_pos. }
  assert (Hq : MapAgent.minPod sk x y / (width sk * 0.4)
               <= d / (width sk * 0.4)).
  { unfold Rdiv. apply Rmult_le_compat_r; [|lra].
    left. apply Rinv_0_lt_compat. lra. }
  assert (Hd1 : 0 <= d / (width sk * 0.4) <= 1).
  { split.
    - apply Rmult_le_pos; [exact Hd0|]. left. apply Rinv_0_lt_compat. lra.
    - apply Rmult_le_reg_r with (r := width sk * 0.4); [lra|].
      unfold Rdiv. rewrite Rmult_assoc, Rinv_l by lra. lra. }
  unfold MapAgent.eco.
  rewrite <- (constrain_id (1 - d / (width sk * 0.4)) 0 1) by lra.
  apply constrain_mono. unfold P5.map. rewrite !Rminus_0_r. lra.
Qed.

(** A sample inside the playfield of a freshly written grid is the comfort
    of the cell that contains the position. *)
Lemma comfortAt_act sk mode frameCount x y :
  valid_sketch sk -> 0 <= x < width sk -> 0 <= y < height sk ->
  exists i j,
    (i < cols sk)%nat /\ (j < rows sk)%nat /\
    INR i * cellW sk <= x < (INR i + 1) * cellW sk /\
    INR j * cellH sk <= y < (INR j + 1) * cellH sk /\
    comfortAt sk (MapAgent.act sk mode frameCount) x y
    = Some (MapAgent.cell_comfort sk mode frameCount i j).
Proof.
  intros (Hc & Hr & Hw & Hh) Hx Hy.
  destruct (cell_index (width sk) x (cols sk) Hc Hw Hx) as (Hi & _ & Hxi).
  destruct (cell_index (height sk) y (rows sk)) as (Hj & _ & Hyj);
    [lia | exact Hh | exact Hy |].
  eexists. eexists. split; [exact Hi|]. split; [exact Hj|].
  split; [exact Hxi|]. split; [exact Hyj|].
  rewrite comfortAt_inside by assumption.
  now apply grid_get_act.
Qed.

Lemma INR_70 : INR 70 = 70.
Proof. rewrite INR_IZR_INZ. reflexivity. Qed.

Lemma INR_105 : INR 105 = 105.
Proof. rewrite INR_IZR_INZ. reflexivity. Qed.

Lemma cells_setup noise :
  cellW (setup noise) = 60 / 7 /\ cellH (setup noise) = 60 / 7.
Proof.
  unfold cellW, cellH. cbn [cols rows width height setup].
  rewrite INR_70, INR_105. split; lra.
Qed.

(** A cell centre within 30/7 of a point that is [radius <= 60] away from
    a pod is within 70 of that pod. *)
Lemma centre_near_pod cx cy ppx ppy angle radius :
  0 <= radius <= 60 ->
  - (30 / 7) <= cx - (ppx + cos angle * radius) <= 30 / 7 ->
  - (30 / 7) <= cy - (ppy + sin angle * radius) <= 30 / 7 ->
  P5.dist cx cy ppx ppy <= 70.
Proof.
  intros Hr Hdx Hdy.
  pose proof (polar_offset_bounded (cos angle) radius (COS_bound angle)
                ltac:(lra)) as Ha.
  pose proof (polar_offset_bounded (sin angle) radius (SIN_bound angle)
                ltac:(lra)) as Hb.
  pose proof (sin2_cos2 angle) as Hunit. unfold Rsqr in Hunit.
  set (a := cos angle * radius) in *. set (b := sin angle * radius) in *.
  assert (Hab : a * a + b * b = radius * radius).
  { unfold a, b.
    replace (cos angle * radius * (cos angle * radius)
             + sin angle * radius * (sin angle * radius))
      with ((sin angle * sin angle + cos angle * cos angle)
            * (radius * radius)) by ring.
    rewrite Hunit. ring. }
  set (dx := cx - (ppx + a)) in *. set (dy := cy - (ppy + b)) in *.
  unfold P5.dist, P5.sq.
  replace 70 with (sqrt (70 * 70)) by (apply sqrt_square; lra).
  apply sqrt_le_1_alt.
  replace (ppx - cx) with (- (a + dx)) by (unfold dx; ring).
  replace (ppy - cy) with (- (b + dy)) by (unfold dy; ring).
  assert (Hr2 : radius * radius <= 3600) by nra.
  assert (Hadx : a * dx <= 60 * (30 / 7)) by nra.
  assert (Hbdy : b * dy <= 60 * (30 / 7)) by nra.
  assert (Hdx2 : dx * dx <= (30 / 7) * (30 / 7)) by nra.
  assert (Hdy2 : dy * dy <= (30 / 7) * (30 / 7)) by nra.
  nra.
Qed.

Lemma pods_setup noise p :
  In p (ecoPods (setup noise)) ->
  180 <= px p <= 420 /\ 225 <= py p <= 720.
Proof.
  intros Hin. cbn in Hin.
  destruct Hin as [<- | [<- | [<- | [<- | []]]]]; cbn; lra.
Qed.

(** On the grid of [setup], whatever the mode and the frame, the cell
    under a point within 60 of an eco-pod has comfort at least 0.18,
    provided the noise is not negative. *)
Lemma comfort_near_pod nf mode frameCount i j p angle radius :
  (forall a b, 0 <= nf a b) ->
  In p (ecoPods (setup nf)) -> 0 <= radius <= 60 ->
  INR i * cellW (setup nf) <= px p + cos angle * radius
    < (INR i + 1) * cellW (setup nf) ->
  INR j * cellH (setup nf) <= py p + sin angle * radius
    < (INR j + 1) * cellH (setup nf) ->
  0.18 <= MapAgent.cell_comfort (setup nf) mode frameCount i j.
Proof.
  intros Hnoise Hin Hr Hi Hj.
  destruct (cells_setup nf) as [HcW HcH]. rewrite HcW in Hi. rewrite HcH in Hj.
  destruct (pods_setup nf p Hin) as [_ Hpy].
  pose proof (polar_offset_bounded (sin angle) radius (SIN_bound angle)
                ltac:(lra)) as Hb.
  unfold MapAgent.cell_comfort, MapAgent.raw_comfort.
  rewrite HcW, HcH.
  set (cx := (INR i + 0.5) * (60 / 7)). set (cy := (INR j + 0.5) * (60 / 7)).
  assert (Hd : P5.dist cx cy (px p) (py p) <= 70).
  { apply centre_near_pod with (angle := angle) (radius := radius);
      [exact Hr | unfold cx; lra | unfold cy; lra]. }
  assert (Heco : 1 - 70 / (width (setup nf) * 0.4)
                 <= MapAgent.eco (setup nf) cx cy).
  { apply eco_near with (p := p); [cbn; lra | exact Hin | exact Hd | cbn; lra]. }
  cbn [width setup] in Heco.
  assert (Htemp : MapAgent.cell_temp (setup nf) j = 1 - INR j / 104).
  { unfold MapAgent.cell_temp, P5.map. cbn [rows setup].
    rewrite INR_105. lra. }
  assert (Hj0 : 18 <= INR j) by lra.
  pose proof (rain_unit (setup nf) frameCount cx cy) as Hrain.
  pose proof (Hnoise (INR i * 0.08) (INR j * 0.08)) as Hbase.
  rewrite <- (constrain_id 0.18 0 1) by lra.
  apply constrain_mono. rewrite Htemp. cbn [noise setup].
  set (e := MapAgent.eco (setup nf) cx cy) in *.
  set (rn := MapAgent.cell_rain (setup nf) frameCount cx cy) in *.
  set (b := nf (INR i * 0.08) (INR j * 0.08)) in *.
  destruct mode; cbn [MapAgent.blend]; lra.
Qed.

(** ** The frame after a respawn *)

Lemma grid_get_dims sk g i j :
  grid_dims sk g -> (i < cols sk)%nat -> (j < rows sk)%nat ->
  exists v, grid_get g i j = Some v.
Proof.
  intros [Hlen Hcols] Hi Hj. unfold grid_get.
  destruct (nth_error g i) as [col|] eqn:Hcol.
  - assert (Hc : length col = rows sk).
    { rewrite Forall_forall in Hcols. eapply Hcols, nth_error_In, Hcol. }
    destruct (nth_error col j) as [v|] eqn:Hv; [now exists v|].
    apply nth_error_None in Hv. lia.
  - apply nth_error_None in Hcol. lia.
Qed.

(** On a grid of the right dimensions every sample is a number. *)
Lemma comfortAt_total sk g x y :
  valid_sketch sk -> grid_dims sk g -> exists v, comfortAt sk g x y = Some v.
Proof.
  intros Hv Hdims. pose proof Hv as (Hc & Hr & Hw & Hh).
  destruct (Rlt_le_dec x 0) as [Hx0 | Hx0];
    [exists 0; apply comfortAt_outside; tauto|].
  destruct (Rle_lt_dec (width sk) x) as [Hxw | Hxw];
    [exists 0; apply comfortAt_outside; tauto|].
  destruct (Rlt_le_dec y 0) as [Hy0 | Hy0];
    [exists 0; apply comfortAt_outside; tauto|].
  destruct (Rle_lt_dec (height sk) y) as [Hyh | Hyh];
    [exists 0; apply comfortAt_outside; tauto|].
  rewrite comfortAt_inside by lra.
  destruct (cell_index (width sk) x (cols sk) Hc Hw) as (Hi & _); [lra|].
  destruct (cell_index (height sk) y (rows sk)) as (Hj & _); [lia | exact Hh | lra |].
  now apply (grid_get_dims sk).
Qed.

Lemma perceive_runs sk g c s :
  valid_sketch sk -> grid_dims sk g ->
  exists c', Cyclist.perceive sk g c s = Some (c', s).
Proof.
  intros Hv Hdims. unfold Cyclist.perceive, bind, lift, ret.
  destruct (comfortAt_total sk g (Cyclist.x c) (Cyclist.y c) Hv Hdims)
    as [v0 ->].
  destruct (comfortAt_total sk g (Cyclist.x c + 10) (Cyclist.y c) Hv Hdims)
    as [v1 ->].
  destruct (comfortAt_total sk g (Cyclist.x c - 10) (Cyclist.y c) Hv Hdims)
    as [v2 ->].
  destruct (comfortAt_total sk g (Cyclist.x c) (Cyclist.y c - 10) Hv Hdims)
    as [v3 ->].
  destruct (comfortAt_total sk g (Cyclist.x c) (Cyclist.y c + 10) Hv Hdims)
    as [v4 ->].
  eexists. reflexivity.
Qed.

Lemma component_le_mag v :
  - P5.mag v <= P5.vx v <= P5.mag v /\ - P5.mag v <= P5.vy v <= P5.mag v.
Proof.
  assert (Hx : Rabs (P5.vx v) <= P5.mag v).
  { unfold P5.mag. rewrite <- sqrt_Rsqr_abs. apply sqrt_le_1_alt.
    pose proof (Rle_0_sqr (P5.vy v)) as H. unfold Rsqr in *. lra. }
  assert (Hy : Rabs (P5.vy v) <= P5.mag v).
  { unfold P5.mag. rewrite <- sqrt_Rsqr_abs. apply sqrt_le_1_alt.
    pose proof (Rle_0_sqr (P5.vx v)) as H. unfold Rsqr in *. lra. }
  unfold Rabs in Hx, Hy.
  destruct (Rcase_abs (P5.vx v)); destruct (Rcase_abs (P5.vy v));
    pose proof (mag_nonneg v); lra.
Qed.

(** X1. With the configuration of [setup] and a noise function that is
    not negative, a respawn lands where the grid of any field-synthesis pass
    holds a comfort of at least 0.18, and the frame that follows (perceive,
    decide, act on such a grid) moves the cyclist without a second respawn:
    its trail then holds the one new position. *)
Theorem respawn_then_stays nf mode frameCount c s :
  (forall a b, 0 <= nf a b) -> unit_tape s ->
  let sk := setup nf in
  let g := MapAgent.act sk mode frameCount in
  exists c1 s1 v,
    Cyclist.respawn sk c s = Some (c1, s1) /\
    comfortAt sk g (Cyclist.x c1) (Cyclist.y c1) = Some v /\ 0.18 <= v /\
    exists c2 s2,
      Cyclist.frame sk g c1 s1 = Some (Cyclist.moved c2, s2) /\
      Cyclist.must_respawn sk (Cyclist.moved c2) = false /\
      Cyclist.trail (Cyclist.moved c2)
      = [mkPoint (Cyclist.x (Cyclist.moved c2)) (Cyclist.y (Cyclist.moved c2))].
Proof.
  intros Hnoise Htape sk g.
  assert (Hv : valid_sketch sk) by apply valid_setup.
  destruct (random_pick (ecoPods sk) (s 0%nat)) as (p & Hnth & Hin);
    [discriminate | apply Htape |].
  destruct (respawn_runs sk c s p Hnth) as (c1 & s1 & Hrun).
  exists c1, s1. rewrite Hrun.
  apply respawn_inv in Hrun. destruct Hrun as (p' & Hnth' & Hc1 & _).
  rewrite Hnth in Hnth'. injection Hnth' as <-.
  pose proof (random_range_bounds (s 2%nat) 10 60 (Htape 2%nat)) as Hrad.
  set (radius := s 2%nat * (60 - 10) + 10) in *.
  set (angle := s 1%nat * P5.TWO_PI) in *.
  assert (Hr : 0 <= radius <= 60) by lra.
  destruct (pods_setup nf p Hin) as [Hpx Hpy].
  pose proof (polar_offset_bounded (cos angle) radius (COS_bound angle)
                ltac:(lra)) as Ha.
  pose proof (polar_offset_bounded (sin angle) radius (SIN_bound angle)
                ltac:(lra)) as Hb.
  assert (Hx1 : Cyclist.x c1 = px p + cos angle * radius) by now rewrite Hc1.
  assert (Hy1 : Cyclist.y c1 = py p + sin angle * radius) by now rewrite Hc1.
  assert (Ht1 : Cyclist.trail c1 = []) by now rewrite Hc1.
  destruct (comfortAt_act sk mode frameCount (Cyclist.x c1) (Cyclist.y c1) Hv)
    as (i & j & _ & _ & Hi & Hj & Hsample);
    [rewrite Hx1; cbn; lra | rewrite Hy1; cbn; lra |].
  fold g in Hsample.
  assert (Hcomf : 0.18 <= MapAgent.cell_comfort sk mode frameCount i j).
  { apply (comfort_near_pod nf mode frameCount i j p angle radius);
      try assumption; [now rewrite <- Hx1 | now rewrite <- Hy1]. }
  exists (MapAgent.cell_comfort sk mode frameCount i j).
  split; [reflexivity|]. split; [exact Hsample|]. split; [exact Hcomf|].
  destruct (perceive_runs sk g c1 s1 Hv (act_dims sk mode frameCount))
    as (cp & Hperceive).
  pose proof (perceive_inv _ _ _ _ _ _ Hperceive)
    as (Hxp & Hyp & _ & Htp & Hlp & [grad Hgrad] & _).
  destruct (decide_runs cp grad s1 Hgrad)
    as (c2 & s2 & Hdecide & Hx2 & Hy2 & Ht2 & Hl2 & Hvel).
  exists c2, s2.
  assert (Hspeed : P5.mag (Cyclist.vel c2) <= 2.0)
    by (rewrite Hvel; apply limit_capped).
  pose proof (component_le_mag (Cyclist.vel c2)) as [Hvx Hvy].
  assert (Hno : Cyclist.must_respawn sk (Cyclist.moved c2) = false).
  { apply must_respawn_false. cbn.
    rewrite Hx2, Hxp, Hx1, Hy2, Hyp, Hy1, Hl2, Hlp, Hsample. cbn.
    rewrite Rltb_false. lra. }
  split; [|split; [exact Hno|]].
  - unfold Cyclist.frame, bind. rewrite Hperceive, Hdecide.
    now apply act_stays.
  - cbn. rewrite Ht2, Htp, Ht1. reflexivity.
Qed.

Lemma respawn_then_stays_witness :
  let sk := setup (fun _ _ => 0.5) in
  exists c1 s1 v,
    Cyclist.respawn sk cold_cyclist (fun _ => 0.5) = Some (c1, s1) /\
    comfortAt sk (MapAgent.act sk Heat 1) (Cyclist.x c1) (Cyclist.y c1)
    = Some v /\ 0.18 <= v.
Proof.
  intros sk.
  destruct (respawn_then_stays (fun _ _ => 0.5) Heat 1 cold_cyclist
              (fun _ => 0.5))
    as (c1 & s1 & v & Hrun & Hsample & Hv & _).
  - intros a b. lra.
  - intros k. lra.
  - exists c1, s1, v. split; [exact Hrun|]. split; [exact Hsample | exact Hv].
Defined.

(** * Further properties of the field-synthesis pass *)

Lemma temp_formula sk j :
  (1 < rows sk)%nat ->
  MapAgent.cell_temp sk j = 1 - INR j / (INR (rows sk) - 1).
Proof.
  intros Hr. unfold MapAgent.cell_temp, P5.map.
  assert (H1 : 1 < INR (rows sk)) by (apply (lt_INR 1); exact Hr).
  field. lra.
Qed.

Lemma temp_unit sk j :
  (1 < rows sk)%nat -> (j < rows sk)%nat ->
  0 <= MapAgent.cell_temp sk j <= 1.
Proof.
  intros Hr Hj.
  assert (H1 : 1 < INR (rows sk)) by (apply (lt_INR 1); exact Hr).
  assert (Hinv : 0 < / (INR (rows sk) - 1)) by (apply Rinv_0_lt_compat; lra).
  rewrite temp_formula by exact Hr.
  assert (Hle : INR j <= INR (rows sk) - 1).
  { replace (INR (rows sk) - 1) with (INR (rows sk - 1))
      by (rewrite minus_INR by lia; reflexivity).
    apply le_INR. lia. }
  assert (INR j / (INR (rows sk) - 1) <= 1).
  { apply Rmult_le_reg_r with (r := INR (rows sk) - 1); [lra|].
    unfold Rdiv. rewrite Rmult_assoc, Rinv_l by lra. lra. }
  pose proof (pos_INR j).
  assert (0 <= INR j / (INR (rows sk) - 1)) by (apply Rmult_le_pos; lra).
  lra.
Qed.

(** X2. The temperature term is 1 in the top row and 0 in the bottom row,
    stays in [[0, 1]] on the grid and falls strictly from each row to the
    next one down. *)
Theorem temp_top_hot_bottom_cool sk :
  (1 < rows sk)%nat ->
  MapAgent.cell_temp sk 0 = 1 /\
  MapAgent.cell_temp sk (rows sk - 1) = 0 /\
  (forall j, (j < rows sk)%nat -> 0 <= MapAgent.cell_temp sk j <= 1) /\
  (forall j j', (j < j')%nat ->
     MapAgent.cell_temp sk j' < MapAgent.cell_temp sk j).
Proof.
  intros Hr.
  assert (H1 : 1 < INR (rows sk)) by (apply (lt_INR 1); exact Hr).
  assert (Hinv : 0 < / (INR (rows sk) - 1)) by (apply Rinv_0_lt_compat; lra).
  split; [rewrite temp_formula by exact Hr; cbn; unfold Rdiv; lra|].
  split.
  { rewrite temp_formula by exact Hr. rewrite minus_INR by lia. cbn.
    unfold Rdiv. rewrite Rinv_r by lra. lra. }
  split; [intros j Hj; now apply temp_unit|].
  intros j j' Hlt. rewrite !temp_formula by exact Hr.
  apply lt_INR in Hlt.
  assert (INR j / (INR (rows sk) - 1) < INR j' / (INR (rows sk) - 1))
    by (unfold Rdiv; apply Rmult_lt_compat_r; assumption).
  lra.
Qed.

Lemma temp_top_hot_bottom_cool_witness :
  MapAgent.cell_temp (setup (fun _ _ => 0)) 0 = 1 /\
  MapAgent.cell_temp (setup (fun _ _ => 0)) 104 = 0.
Proof.
  destruct (temp_top_hot_bottom_cool (setup (fun _ _ => 0)))
    as (Htop & Hbottom & _); [cbn; lia|].
  split; [exact Htop | exact Hbottom].
Defined.

(** X3. The centre of the rain cloud never leaves the canvas: it stays
    within the middle 60 percent of the width and the middle 40 percent of
    the height, at every frame.  The rain term is 1 at that centre and
    lies in (0, 1] everywhere. *)
Theorem rain_cloud_on_canvas sk frameCount :
  0 < width sk -> 0 < height sk ->
  width sk * 0.2 <= MapAgent.rainCx sk frameCount <= width sk * 0.8 /\
  height sk * 0.3 <= MapAgent.rainCy sk frameCount <= height sk * 0.7 /\
  MapAgent.cell_rain sk frameCount (MapAgent.rainCx sk frameCount)
                     (MapAgent.rainCy sk frameCount) = 1 /\
  (forall x y, 0 < MapAgent.cell_rain sk frameCount x y <= 1).
Proof.
  intros Hw Hh.
  pose proof (SIN_bound (MapAgent.t frameCount * 0.7)) as Hs.
  pose proof (COS_bound (MapAgent.t frameCount * 0.4)) as Hc.
  split; [unfold MapAgent.rainCx; nra|].
  split; [unfold MapAgent.rainCy; nra|].
  split; [|intros x y; apply rain_unit].
  unfold MapAgent.cell_rain, P5.dist, P5.sq.
  rewrite !Rminus_diag, Rmult_0_l, Rplus_0_l, sqrt_0.
  unfold Rdiv. rewrite !Rmult_0_l, Ropp_0. apply exp_0.
Qed.

Lemma rain_cloud_on_canvas_witness :
  600 * 0.2 <= MapAgent.rainCx (setup (fun _ _ => 0)) 1 <= 600 * 0.8.
Proof.
  refine (proj1 (rain_cloud_on_canvas (setup (fun _ _ => 0)) 1 _ _));
    cbn; lra.
Defined.

Lemma minPod_fold_attained x y (pods : list Point) : forall m,
  let r := fold_left (fun m p => let dp := P5.dist x y (px p) (py p) in
                                 if Rltb dp m then dp else m) pods m in
  r = m \/ exists p, In p pods /\ r = P5.dist x y (px p) (py p).
Proof.
  induction pods as [|q pods IH]; intros m; cbn [fold_left]; [now left|].
  cbn zeta in *.
  destruct (Rltb (P5.dist x y (px q) (py q)) m) eqn:Hlt.
  - destruct (IH (P5.dist x y (px q) (py q))) as [-> | (p & Hin & ->)].
    + right. exists q. split; [now left | reflexivity].
    + right. exists p. split; [now right | reflexivity].
  - destruct (IH m) as [-> | (p & Hin & ->)].
    + now left.
    + right. exists p. split; [now right | reflexivity].
Qed.

Lemma minPod_attained sk x y :
  MapAgent.minPod sk x y = 9999 \/
  exists p, In p (ecoPods sk)
            /\ MapAgent.minPod sk x y = P5.dist x y (px p) (py p).
Proof. apply minPod_fold_attained. Qed.

(** X4. The eco-pod loop computes the distance to the nearest pod, capped
    by its start value 9999: the result is at most 9999 and at most the
    distance to every pod, and it is either 9999 or the distance to one of
    the pods. *)
Theorem minPod_nearest sk x y :
  MapAgent.minPod sk x y <= 9999 /\
  (forall p, In p (ecoPods sk) ->
     MapAgent.minPod sk x y <= P5.dist x y (px p) (py p)) /\
  (MapAgent.minPod sk x y = 9999 \/
   exists p, In p (ecoPods sk)
             /\ MapAgent.minPod sk x y = P5.dist x y (px p) (py p)).
Proof.
  split; [apply minPod_fold_le|]. split.
  - intros p Hin. now apply minPod_le.
  - apply minPod_attained.
Qed.

Lemma dist_nonneg x1 y1 x2 y2 : 0 <= P5.dist x1 y1 x2 y2.
Proof. apply sqrt_pos. Qed.

Lemma dist_self x y : P5.dist x y x y = 0.
Proof.
  unfold P5.dist, P5.sq. rewrite !Rminus_diag, Rmult_0_l, Rplus_0_l.
  apply sqrt_0.
Qed.

Lemma minPod_nonneg sk x y : 0 <= MapAgent.minPod sk x y.
Proof.
  destruct (minPod_attained sk x y) as [H | (p & _ & H)];
    rewrite H; [lra | apply dist_nonneg].
Qed.

(** X5. The eco term is 1 at the position of an eco-pod, positive wherever
    some pod is nearer than [0.4 * width], and 0 wherever every pod is at
    least that far (for a canvas no wider than 24997.5, so that the start
    value 9999 of the search is out of reach as well). *)
Theorem eco_by_distance sk :
  0 < width sk -> width sk <= 24997.5 ->
  (forall p, In p (ecoPods sk) -> MapAgent.eco sk (px p) (py p) = 1) /\
  (forall x y p, In p (ecoPods sk) ->
     P5.dist x y (px p) (py p) < width sk * 0.4 -> 0 < MapAgent.eco sk x y) /\
  (forall x y,
     (forall p, In p (ecoPods sk) ->
        width sk * 0.4 <= P5.dist x y (px p) (py p)) ->
     MapAgent.eco sk x y = 0).
Proof.
  intros Hw Hmax.
  assert (Hnear : forall x y p, In p (ecoPods sk) ->
            P5.dist x y (px p) (py p) < width sk * 0.4 ->
            MapAgent.eco sk x y
            = 1 - MapAgent.minPod sk x y / (width sk * 0.4)
            /\ MapAgent.minPod sk x y < width sk * 0.4).
  { intros x y p Hin Hd.
    pose proof (minPod_le sk x y p Hin) as Hle.
    pose proof (minPod_nonneg sk x y) as H0.
    assert (Hq : 0 <= MapAgent.minPod sk x y / (width sk * 0.4) < 1).
    { split.
      - apply Rmult_le_pos; [exact H0|]. left. apply Rinv_0_lt_compat. lra.
      - apply Rmult_lt_reg_r with (r := width sk * 0.4); [lra|].
        unfold Rdiv. rewrite Rmult_assoc, Rinv_l by lra. lra. }
    split; [|lra].
    unfold MapAgent.eco, P5.map. rewrite !Rminus_0_r.
    rewrite constrain_id; lra. }
  repeat split.
  - intros p Hin.
    destruct (Hnear (px p) (py p) p Hin) as [Heq _];
      [rewrite dist_self; lra|].
    pose proof (minPod_le sk (px p) (py p) p Hin) as Hle.
    rewrite dist_self in Hle.
    pose proof (minPod_nonneg sk (px p) (py p)) as H0.
    rewrite Heq. replace (MapAgent.minPod sk (px p) (py p)) with 0 by lra.
    unfold Rdiv. lra.
  - intros x y p Hin Hd.
    destruct (Hnear x y p Hin Hd) as [Heq Hlt]. rewrite Heq.
    assert (MapAgent.minPod sk x y / (width sk * 0.4) < 1).
    { apply Rmult_lt_reg_r with (r := width sk * 0.4); [lra|].
      unfold Rdiv. rewrite Rmult_assoc, Rinv_l by lra. lra. }
    lra.
  - intros x y Hfar. apply eco_far; [exact Hw|].
    destruct (minPod_attained sk x y) as [H | (p & Hin & H)]; rewrite H.
    + lra.
    + now apply Hfar.
Qed.

Lemma eco_by_distance_witness :
  MapAgent.eco (setup (fun _ _ => 0)) (600 * 0.3) (900 * 0.25) = 1.
Proof.
  destruct (eco_by_distance (setup (fun _ _ => 0))) as (Hat & _);
    [cbn; lra | cbn; lra |].
  apply (Hat (mkPoint (600 * 0.3) (900 * 0.25))). now left.
Defined.

(** X6. With a noise function that stays in [[0, 1]], as the one of p5
    does, the weighted blend of a cell is already in [[0, 1)] before it is
    clamped: the final [constrain] leaves it as it is. *)
Theorem blend_needs_no_clamp sk mode frameCount i j :
  valid_sketch sk -> (forall a b, 0 <= noise sk a b <= 1) ->
  (j < rows sk)%nat ->
  0 <= MapAgent.raw_comfort sk mode frameCount i j < 1 /\
  MapAgent.cell_comfort sk mode frameCount i j
  = MapAgent.raw_comfort sk mode frameCount i j.
Proof.
  intros (_ & Hr & _ & _) Hnoise Hj.
  assert (Hraw : 0 <= MapAgent.raw_comfort sk mode frameCount i j < 1).
  { unfold MapAgent.raw_comfort.
    pose proof (temp_unit sk j Hr Hj) as Htemp.
    set (x := (INR i + 0.5) * cellW sk). set (y := (INR j + 0.5) * cellH sk).
    pose proof (constrain_bounds
                  (P5.map (MapAgent.minPod sk x y) 0 (width sk * 0.4) 1 0) 0 1
                  ltac:(lra)) as Heco.
    fold (MapAgent.eco sk x y) in Heco.
    pose proof (rain_unit sk frameCount x y) as Hrain.
    pose proof (Hnoise (INR i * 0.08) (INR j * 0.08)) as Hbase.
    destruct mode; cbn [MapAgent.blend]; lra. }
  split; [exact Hraw|].
  unfold MapAgent.cell_comfort. apply constrain_id. lra.
Qed.

Lemma blend_needs_no_clamp_witness :
  MapAgent.cell_comfort (setup (fun _ _ => 0.5)) Rain 1 3 4
  = MapAgent.raw_comfort (setup (fun _ _ => 0.5)) Rain 1 3 4.
Proof.
  refine (proj2 (blend_needs_no_clamp (setup (fun _ _ => 0.5)) Rain 1 3 4
                   (valid_setup _) _ _)).
  - intros a b. cbn. lra.
  - cbn. lia.
Defined.

Lemma hue_formula c : hue c = 210 * c.
Proof. unfold hue, P5.map. lra. Qed.

(** X7. The colours of the heatmap stay in range.  The hue of every cell
    is 210 times its comfort, between 0 (red) and 210 (blue), and a more
    comfortable cell never gets a smaller hue; with a noise value in
    [[0, 1]] the brightness stays between 82 and 98.  The legend bar runs
    through the same hues, from 0 in its first column to 210 in its last. *)
Theorem heatmap_colours_in_range sk mode frameCount :
  valid_sketch sk ->
  (forall i j, (i < cols sk)%nat -> (j < rows sk)%nat ->
     cell_hue sk mode frameCount i j
     = 210 * MapAgent.cell_comfort sk mode frameCount i j /\
     0 <= cell_hue sk mode frameCount i j <= 210) /\
  (forall c c', c <= c' -> hue c <= hue c') /\
  (forall n, 0 <= n <= 1 -> 82 <= brightness n <= 98) /\
  legend_hue 0 = 0 /\ legend_hue 179 = 210 /\
  (forall x x', (x < x')%nat -> legend_hue x < legend_hue x').
Proof.
  intros _. split.
  { intros i j _ _. unfold cell_hue. rewrite hue_formula. split; [reflexivity|].
    pose proof (constrain_bounds
                  (MapAgent.raw_comfort sk mode frameCount i j) 0 1 ltac:(lra)).
    fold (MapAgent.cell_comfort sk mode frameCount i j) in H. lra. }
  split; [intros c c' Hc; rewrite !hue_formula; lra|].
  split; [intros n Hn; unfold brightness, P5.map; lra|].
  split; [unfold legend_hue; rewrite hue_formula; cbn; unfold Rdiv; lra|].
  split.
  { unfold legend_hue. rewrite hue_formula.
    replace (INR 179) with 179 by (rewrite INR_IZR_INZ; reflexivity). lra. }
  intros x x' Hlt. unfold legend_hue. rewrite !hue_formula.
  apply lt_INR in Hlt. lra.
Qed.

Lemma heatmap_colours_in_range_witness :
  0 <= cell_hue (setup (fun _ _ => 0.5)) Sunny 1 10 20 <= 210.
Proof.
  destruct (heatmap_colours_in_range (setup (fun _ _ => 0.5)) Sunny 1
              (valid_setup _)) as (Hcell & _).
  apply (Hcell 10%nat 20%nat); cbn; lia.
Defined.

(** * Further properties of the lookup and of the agents *)

Lemma act_unit sk mode frameCount :
  grid_unit (MapAgent.act sk mode frameCount).
Proof.
  unfold grid_unit, MapAgent.act. apply Forall_forall. intros col Hcol.
  apply in_map_iff in Hcol. destruct Hcol as (i & <- & _).
  apply Forall_forall. intros v Hv.
  apply in_map_iff in Hv. destruct Hv as (j & <- & _).
  apply constrain_bounds. lra.
Qed.

Lemma grid_get_unit g i j v :
  grid_unit g -> grid_get g i j = Some v -> 0 <= v <= 1.
Proof.
  intros Hunit. unfold grid_get.
  destruct (nth_error g i) as [col|] eqn:Hcol; [|discriminate].
  intros Hv. unfold grid_unit in Hunit. rewrite Forall_forall in Hunit.
  specialize (Hunit col (nth_error_In _ _ Hcol)).
  rewrite Forall_forall in Hunit. exact (Hunit v (nth_error_In _ _ Hv)).
Qed.

Lemma comfortAt_unit sk g x y :
  valid_sketch sk -> grid_dims sk g -> grid_unit g ->
  exists v, comfortAt sk g x y = Some v /\ 0 <= v <= 1.
Proof.
  intros Hv Hdims Hunit.
  destruct (comfortAt_total sk g x y Hv Hdims) as [v Heq].
  exists v. split; [exact Heq|].
  unfold comfortAt in Heq.
  destruct (Rltb x 0 || Rleb (width sk) x || Rltb y 0 || Rleb (height sk) y).
  - injection Heq as <-. lra.
  - eapply grid_get_unit; eassumption.
Qed.

(** X8. On a grid of [cols] by [rows] comfort values the lookup never
    reads outside the arrays: at every position, inside the playfield or
    not, it returns a number, and that number is in [[0, 1]] when the
    entries of the grid are.  The grid of each field-synthesis pass is such
    a grid. *)
Theorem comfortAt_never_undefined sk g :
  valid_sketch sk -> grid_dims sk g ->
  (forall x y, exists v, comfortAt sk g x y = Some v) /\
  (grid_unit g ->
   forall x y, exists v, comfortAt sk g x y = Some v /\ 0 <= v <= 1) /\
  (forall mode frameCount,
     grid_dims sk (MapAgent.act sk mode frameCount) /\
     grid_unit (MapAgent.act sk mode frameCount)).
Proof.
  intros Hv Hdims. split; [intros x y; now apply comfortAt_total|].
  split; [intros Hunit x y; now apply comfortAt_unit|].
  intros mode frameCount. split; [apply act_dims | apply act_unit].
Qed.

Lemma comfortAt_never_undefined_witness :
  let sk := setup (fun _ _ => 0) in
  exists v, comfortAt sk (MapAgent.act sk Rain 7) 123.4 (-5) = Some v.
Proof.
  intros sk.
  destruct (comfortAt_never_undefined sk (MapAgent.act sk Rain 7)
              (valid_setup _) (act_dims sk Rain 7)) as (Htotal & _).
  apply Htotal.
Defined.

Lemma perceive_eq sk g c s cCenter cRight cLeft cUp cDown :
  comfortAt sk g (Cyclist.x c) (Cyclist.y c) = Some cCenter ->
  comfortAt sk g (Cyclist.x c + 10) (Cyclist.y c) = Some cRight ->
  comfortAt sk g (Cyclist.x c - 10) (Cyclist.y c) = Some cLeft ->
  comfortAt sk g (Cyclist.x c) (Cyclist.y c - 10) = Some cUp ->
  comfortAt sk g (Cyclist.x c) (Cyclist.y c + 10) = Some cDown ->
  Cyclist.perceive sk g c s
  = Some (Cyclist.mk (Cyclist.x c) (Cyclist.y c) (Cyclist.vel c)
            (Cyclist.trail c)
            (Some (P5.createVector ((cRight - cLeft) / (2 * 10))
                                   ((cDown - cUp) / (2 * 10))))
            (Some cCenter), s).
Proof.
  intros H0 H1 H2 H3 H4. unfold Cyclist.perceive, bind, lift, ret.
  now rewrite H0, H1, H2, H3, H4.
Qed.

(** X9. On a [cols] by [rows] grid of comfort values in [[0, 1]],
    [perceive] always succeeds, draws no random number and changes neither
    position, velocity nor trail; the comfort it stores is in [[0, 1]] and
    both components of the gradient it stores are within 0.05 of zero. *)
Theorem perceive_bounded sk g c s :
  valid_sketch sk -> grid_dims sk g -> grid_unit g ->
  exists c' v gx gy,
    Cyclist.perceive sk g c s = Some (c', s) /\
    Cyclist.x c' = Cyclist.x c /\ Cyclist.y c' = Cyclist.y c /\
    Cyclist.vel c' = Cyclist.vel c /\ Cyclist.trail c' = Cyclist.trail c /\
    Cyclist.localComfort c' = Some v /\ 0 <= v <= 1 /\
    Cyclist.perceivedGradient c' = Some (P5.createVector gx gy) /\
    -0.05 <= gx <= 0.05 /\ -0.05 <= gy <= 0.05.
Proof.
  intros Hv Hdims Hunit.
  destruct (comfortAt_unit sk g (Cyclist.x c) (Cyclist.y c) Hv Hdims Hunit)
    as (v0 & H0 & Hb0).
  destruct (comfortAt_unit sk g (Cyclist.x c + 10) (Cyclist.y c) Hv Hdims Hunit)
    as (v1 & H1 & Hb1).
  destruct (comfortAt_unit sk g (Cyclist.x c - 10) (Cyclist.y c) Hv Hdims Hunit)
    as (v2 & H2 & Hb2).
  destruct (comfortAt_unit sk g (Cyclist.x c) (Cyclist.y c - 10) Hv Hdims Hunit)
    as (v3 & H3 & Hb3).
  destruct (comfortAt_unit sk g (Cyclist.x c) (Cyclist.y c + 10) Hv Hdims Hunit)
    as (v4 & H4 & Hb4).
  eexists. exists v0, ((v1 - v2) / (2 * 10)), ((v4 - v3) / (2 * 10)).
  split; [apply (perceive_eq sk g c s v0 v1 v2 v3 v4); assumption|].
  cbn. repeat split; lra.
Qed.

Lemma perceive_bounded_witness :
  let sk := setup (fun _ _ => 0.5) in
  exists c', Cyclist.perceive sk (MapAgent.act sk Sunny 1) edge_cyclist
               (fun _ => 0) = Some (c', fun _ => 0).
Proof.
  intros sk.
  destruct (perceive_bounded sk (MapAgent.act sk Sunny 1) edge_cyclist
              (fun _ => 0) (valid_setup _) (act_dims _ _ _) (act_unit _ _ _))
    as (c' & _ & _ & _ & Hrun & _).
  exists c'. exact Hrun.
Defined.

(** X10. Off-field samples read 0, so next to an edge the perceived
    gradient never points out of the playfield, whatever non-negative grid
    is sampled: within 10 of the right edge (or beyond it) its x component
    is at most 0, within 10 of the left edge at least 0, and likewise for
    the bottom and top edges and its y component. *)
Theorem gradient_points_inward sk g c s c' s' gx gy :
  valid_sketch sk -> grid_dims sk g -> grid_unit g ->
  Cyclist.perceive sk g c s = Some (c', s') ->
  Cyclist.perceivedGradient c' = Some (P5.createVector gx gy) ->
  (width sk - 10 <= Cyclist.x c -> gx <= 0) /\
  (Cyclist.x c < 10 -> 0 <= gx) /\
  (height sk - 10 <= Cyclist.y c -> gy <= 0) /\
  (Cyclist.y c < 10 -> 0 <= gy).
Proof.
  intros Hv Hdims Hunit Hrun Hgrad.
  destruct (comfortAt_unit sk g (Cyclist.x c) (Cyclist.y c) Hv Hdims Hunit)
    as (v0 & H0 & Hb0).
  destruct (comfortAt_unit sk g (Cyclist.x c + 10) (Cyclist.y c) Hv Hdims Hunit)
    as (v1 & H1 & Hb1).
  destruct (comfortAt_unit sk g (Cyclist.x c - 10) (Cyclist.y c) Hv Hdims Hunit)
    as (v2 & H2 & Hb2).
  destruct (comfortAt_unit sk g (Cyclist.x c) (Cyclist.y c - 10) Hv Hdims Hunit)
    as (v3 & H3 & Hb3).
  destruct (comfortAt_unit sk g (Cyclist.x c) (Cyclist.y c + 10) Hv Hdims Hunit)
    as (v4 & H4 & Hb4).
  rewrite (perceive_eq sk g c s v0 v1 v2 v3 v4) in Hrun by assumption.
  injection Hrun as <- <-. cbn in Hgrad. injection Hgrad as <- <-.
  repeat split.
  - intros Hx. rewrite comfortAt_outside in H1 by lra.
    injection H1 as <-. lra.
  - intros Hx. rewrite comfortAt_outside in H2 by lra.
    injection H2 as <-. lra.
  - intros Hy. rewrite comfortAt_outside in H4 by lra.
    injection H4 as <-. lra.
  - intros Hy. rewrite comfortAt_outside in H3 by lra.
    injection H3 as <-. lra.
Qed.

Lemma gradient_points_inward_witness :
  let sk := setup (fun _ _ => 0.5) in
  exists c' s' gx gy,
    Cyclist.perceive sk (MapAgent.act sk Sunny 1) edge_cyclist (fun _ => 0)
    = Some (c', s') /\
    Cyclist.perceivedGradient c' = Some (P5.createVector gx gy) /\ gx <= 0.
Proof.
  intros sk.
  destruct (perceive_runs sk (MapAgent.act sk Sunny 1) edge_cyclist
              (fun _ => 0) (valid_setup _) (act_dims _ _ _)) as (c' & Hrun).
  destruct (perceive_inv _ _ _ _ _ _ Hrun)
    as (_ & _ & _ & _ & _ & [[gx gy] Hgrad] & _).
  exists c', (fun _ => 0), gx, gy.
  split; [exact Hrun|]. split; [exact Hgrad|].
  apply (gradient_points_inward sk (MapAgent.act sk Sunny 1) edge_cyclist
           (fun _ => 0) c' (fun _ => 0) gx gy (valid_setup _)
           (act_dims _ _ _) (act_unit _ _ _) Hrun Hgrad).
  cbn. lra.
Defined.

(** ** How fast a cyclist can get *)

Lemma mag_sqr v : P5.mag v * P5.mag v = P5.vx v * P5.vx v + P5.vy v * P5.vy v.
Proof.
  unfold P5.mag. apply sqrt_sqrt.
  pose proof (Rle_0_sqr (P5.vx v)). pose proof (Rle_0_sqr (P5.vy v)).
  unfold Rsqr in *. lra.
Qed.

(** The triangle inequality for [add]. *)
Lemma mag_add_le v w : P5.mag (P5.add v w) <= P5.mag v + P5.mag w.
Proof.
  pose proof (mag_nonneg v) as Hv. pose proof (mag_nonneg w) as Hw.
  pose proof (mag_sqr v) as Hv2. pose proof (mag_sqr w) as Hw2.
  set (a := P5.mag v) in *. set (b := P5.mag w) in *.
  destruct v as [v1 v2], w as [w1 w2]. cbn [P5.vx P5.vy] in *.
  assert (Hdot : v1 * w1 + v2 * w2 <= a * b).
  { destruct (Rle_lt_dec (v1 * w1 + v2 * w2) 0) as [Hneg | Hpos].
    - assert (0 <= a * b) by (apply Rmult_le_pos; assumption). lra.
    - assert (Hcs : (v1 * w1 + v2 * w2) * (v1 * w1 + v2 * w2)
                    <= (a * b) * (a * b)).
      { replace (a * b * (a * b)) with ((a * a) * (b * b)) by ring.
        rewrite Hv2, Hw2.
        pose proof (Rle_0_sqr (v1 * w2 - v2 * w1)) as Hsq.
        unfold Rsqr in Hsq. lra. }
      assert (0 <= a * b) by (apply Rmult_le_pos; assumption).
      nra. }
  unfold P5.mag, P5.add. cbn [P5.vx P5.vy].
  rewrite <- (sqrt_square (a + b)) by lra.
  apply sqrt_le_1_alt. lra.
Qed.

Lemma mag_normalize_le v : P5.mag (P5.normalize v) <= 1.
Proof.
  destruct (Req_dec_T (P5.mag v) 0) as [Hz | Hnz].
  - unfold P5.normalize. destruct (Req_dec_T (P5.mag v) 0); [lra | contradiction].
  - rewrite mag_normalize by exact Hnz. lra.
Qed.

Lemma limit_shrinks v : P5.mag (Cyclist.limit v) <= P5.mag v.
Proof.
  pose proof (limit_capped v) as Hcap. unfold Cyclist.limit in *.
  destruct (Rltb Cyclist.maxSpeed (P5.mag v)) eqn:Hfast; [|lra].
  apply Rltb_true in Hfast. lra.
Qed.

Lemma limit_idle v : P5.mag v <= Cyclist.maxSpeed -> Cyclist.limit v = v.
Proof.
  intros Hslow. unfold Cyclist.limit.
  replace (Rltb Cyclist.maxSpeed (P5.mag v)) with false; [reflexivity|].
  symmetry. now apply Rltb_false.
Qed.

Lemma blend_speed v g :
  P5.mag (P5.add (P5.mult v 0.75) (P5.mult (P5.normalize g) 0.25))
  <= 0.75 * P5.mag v + 0.25.
Proof.
  eapply Rle_trans; [apply mag_add_le|].
  rewrite !mag_mult, !Rabs_right by lra.
  pose proof (mag_normalize_le g). lra.
Qed.

(** X11. One [decide] turns a speed [v] into at most [0.75 * v + 0.25].
    So a cyclist no faster than 7/3, and in particular one that respects
    the cap 2.0, never triggers the speed limit: its new velocity is the
    plain blend of the old velocity and the steering direction. *)
Theorem decide_slows_down c s c' s' :
  Cyclist.decide c s = Some (c', s') ->
  P5.mag (Cyclist.vel c') <= 0.75 * P5.mag (Cyclist.vel c) + 0.25 /\
  (P5.mag (Cyclist.vel c) <= 7 / 3 ->
   exists g, P5.mag g <= 1 /\
     Cyclist.vel c'
     = P5.add (P5.mult (Cyclist.vel c) 0.75) (P5.mult g 0.25)).
Proof.
  intros Hrun.
  destruct (Cyclist.perceivedGradient c) as [g0|] eqn:Hg;
    [|unfold Cyclist.decide in Hrun; rewrite Hg in Hrun; discriminate].
  destruct (decide_runs c g0 s Hg) as (c1 & s1 & Hrun1 & _ & _ & _ & _ & Hvel).
  rewrite Hrun1 in Hrun. injection Hrun as <- <-.
  rewrite Hvel. unfold steer. split.
  - eapply Rle_trans; [apply limit_shrinks | apply blend_speed].
  - intros Hslow. eexists. split; [apply mag_normalize_le|].
    apply limit_idle. unfold Cyclist.maxSpeed.
    eapply Rle_trans; [apply blend_speed|]. lra.
Qed.

Lemma decide_slows_down_witness :
  exists c' s',
    Cyclist.decide edge_cyclist (fun _ => 0.5) = Some (c', s') /\
    P5.mag (Cyclist.vel c') <= 0.75 * P5.mag (Cyclist.vel edge_cyclist) + 0.25.
Proof.
  destruct (decide_runs edge_cyclist (P5.createVector 0 0) (fun _ => 0.5)
              eq_refl) as (c' & s' & Hrun & _).
  exists c', s'. split; [exact Hrun|].
  apply (decide_slows_down edge_cyclist (fun _ => 0.5) c' s' Hrun).
Defined.

(** ** A whole frame of one cyclist *)

Lemma decide_tape c s c' s' :
  Cyclist.decide c s = Some (c', s') -> unit_tape s -> unit_tape s'.
Proof.
  unfold Cyclist.decide.
  destruct (Cyclist.perceivedGradient c) as [g|]; [|discriminate].
  unfold bind, lift, ret, random_range, rand; cbn.
  destruct (Rltb (P5.mag g) 0.0005); cbn;
    intros H Hs; injection H as _ <-; intros k; apply Hs.
Qed.

Lemma respawn_tape sk c s c' s' :
  Cyclist.respawn sk c s = Some (c', s') -> unit_tape s -> unit_tape s'.
Proof.
  intros Hrun Hs. apply respawn_inv in Hrun.
  destruct Hrun as (_ & _ & _ & ->). intros k. apply Hs.
Qed.

Lemma respawn_runs_unit sk c s :
  ecoPods sk <> [] -> unit_tape s ->
  exists c' s', Cyclist.respawn sk c s = Some (c', s').
Proof.
  intros Hne Hs.
  destruct (random_pick (ecoPods sk) (s 0%nat) Hne (Hs 0%nat)) as (p & Hp & _).
  now apply (respawn_runs sk c s p).
Qed.

(** X12. A frame of a cyclist (perceive, decide, act) never stops on a
    read of [undefined]: on a [cols] by [rows] grid, with at least one
    eco-pod and random draws in [[0, 1)], it succeeds from every state of
    the cyclist, and the draws that remain are again in [[0, 1)]. *)
Theorem frame_never_fails sk g c s :
  valid_sketch sk -> grid_dims sk g -> ecoPods sk <> [] -> unit_tape s ->
  exists c' s', Cyclist.frame sk g c s = Some (c', s') /\ unit_tape s'.
Proof.
  intros Hv Hdims Hne Hs.
  destruct (perceive_runs sk g c s Hv Hdims) as (c1 & Hp).
  destruct (perceive_inv _ _ _ _ _ _ Hp) as (_ & _ & _ & _ & _ & [grad Hgrad] & _).
  destruct (decide_runs c1 grad s Hgrad) as (c2 & s2 & Hd & _).
  pose proof (decide_tape _ _ _ _ Hd Hs) as Hs2.
  unfold Cyclist.frame, bind. rewrite Hp, Hd. unfold Cyclist.act.
  destruct (Cyclist.must_respawn sk (Cyclist.moved c2)).
  - destruct (respawn_runs_unit sk (Cyclist.moved c2) s2 Hne Hs2)
      as (c3 & s3 & Hr).
    exists c3, s3. split; [exact Hr|]. eapply respawn_tape; eassumption.
  - exists (Cyclist.moved c2), s2. split; [reflexivity | exact Hs2].
Qed.

Lemma frame_never_fails_witness :
  let sk := setup (fun _ _ => 0.5) in
  exists c' s',
    Cyclist.frame sk (MapAgent.act sk Heat 3) cold_cyclist (fun _ => 0.25)
    = Some (c', s').
Proof.
  intros sk.
  destruct (frame_never_fails sk (MapAgent.act sk Heat 3) cold_cyclist
              (fun _ => 0.25) (valid_setup _) (act_dims _ _ _))
    as (c' & s' & Hrun & _).
  - discriminate.
  - intros k. lra.
  - exists c', s'. exact Hrun.
Defined.

Lemma respawn_in_margin sk c s c' s' :
  pods_inside sk -> unit_tape s ->
  Cyclist.respawn sk c s = Some (c', s') ->
  in_margin sk c' /\ P5.mag (Cyclist.vel c') <= 2.0.
Proof.
  intros Hpods Hs Hrun. apply respawn_inv in Hrun.
  destruct Hrun as (p & Hnth & -> & _).
  destruct (Hpods p (nth_error_In _ _ Hnth)) as [Hpx Hpy].
  pose proof (random_range_bounds (s 2%nat) 10 60 (Hs 2%nat)) as Hrad.
  pose proof (random_range_bounds (s 3%nat) (-1) 1 (Hs 3%nat)) as Hvx.
  pose proof (random_range_bounds (s 4%nat) (-1) 1 (Hs 4%nat)) as Hvy.
  set (radius := s 2%nat * (60 - 10) + 10) in *.
  set (angle := s 1%nat * P5.TWO_PI).
  pose proof (polar_offset_bounded (cos angle) radius (COS_bound angle)
                ltac:(lra)) as Ha.
  pose proof (polar_offset_bounded (sin angle) radius (SIN_bound angle)
                ltac:(lra)) as Hb.
  split; [unfold in_margin; cbn; lra|].
  unfold P5.mag; cbn.
  set (vx := s 3%nat * (1 - -1) + -1) in *.
  set (vy := s 4%nat * (1 - -1) + -1) in *.
  apply Rle_trans with (r2 := 2); [|lra].
  rewrite <- (sqrt_square 2) by lra.
  apply sqrt_le_1_alt. nra.
Qed.

(** X13. Whatever state a cyclist is in, the state a frame leaves it in is
    within the 40-unit margin around the canvas and no faster than 2.0,
    provided the eco-pods lie at least 20 inside the playfield and the
    random draws are in [[0, 1)]: a cyclist that the move takes beyond the
    margin is put back next to a pod within the same frame. *)
Theorem frame_ends_in_margin sk g c s c' s' :
  pods_inside sk -> unit_tape s ->
  Cyclist.frame sk g c s = Some (c', s') ->
  in_margin sk c' /\ P5.mag (Cyclist.vel c') <= 2.0.
Proof.
  intros Hpods Hs Hframe. unfold Cyclist.frame, bind in Hframe.
  destruct (Cyclist.perceive sk g c s) as [[c1 s1]|] eqn:Hp; [|discriminate].
  destruct (Cyclist.decide c1 s1) as [[c2 s2]|] eqn:Hd; [|discriminate].
  apply perceive_inv in Hp. destruct Hp as (_ & _ & _ & _ & _ & [grad Hgrad] & ->).
  pose proof (decide_tape _ _ _ _ Hd Hs) as Hs2.
  assert (Hspeed : P5.mag (Cyclist.vel c2) <= 2.0).
  { destruct (decide_runs c1 grad s Hgrad) as (c3 & s3 & Hd' & _ & _ & _ & _ & Hvel).
    rewrite Hd' in Hd. injection Hd as <- <-. rewrite Hvel. apply limit_capped. }
  unfold Cyclist.act in Hframe.
  destruct (Cyclist.must_respawn sk (Cyclist.moved c2)) eqn:Hm.
  - eapply respawn_in_margin; eassumption.
  - injection Hframe as <- <-. apply must_respawn_false in Hm.
    split; [unfold in_margin; tauto | exact Hspeed].
Qed.

Lemma frame_ends_in_margin_witness :
  let sk := setup (fun _ _ => 0.5) in
  exists c' s',
    Cyclist.frame sk (MapAgent.act sk Heat 3) edge_cyclist (fun _ => 0.25)
    = Some (c', s') /\ in_margin sk c'.
Proof.
  intros sk.
  assert (Hs : unit_tape (fun _ => 0.25)) by (intros k; lra).
  destruct (perceive_runs sk (MapAgent.act sk Heat 3) edge_cyclist
              (fun _ => 0.25) (valid_setup _) (act_dims _ _ _)) as (c1 & Hp).
  destruct (perceive_inv _ _ _ _ _ _ Hp) as (_ & _ & _ & _ & _ & [grad Hgrad] & _).
  destruct (decide_runs c1 grad (fun _ => 0.25) Hgrad) as (c2 & s2 & Hd & _).
  pose proof (decide_tape _ _ _ _ Hd Hs) as Hs2.
  assert (Hrun : exists c' s',
            Cyclist.frame sk (MapAgent.act sk Heat 3) edge_cyclist
              (fun _ => 0.25) = Some (c', s')).
  { unfold Cyclist.frame, bind. rewrite Hp, Hd. unfold Cyclist.act.
    destruct (Cyclist.must_respawn sk (Cyclist.moved c2)).
    - apply respawn_runs_unit; [discriminate | exact Hs2].
    - eexists. eexists. reflexivity. }
  destruct Hrun as (c' & s' & Hrun). exists c', s'. split; [exact Hrun|].
  apply (frame_ends_in_margin sk (MapAgent.act sk Heat 3) edge_cyclist
           (fun _ => 0.25) c' s' (pods_inside_setup _) Hs Hrun).
Defined.

(** ** The shape of the trail *)

Lemma steps_within_tl d tr : steps_within d tr -> steps_within d (tl tr).
Proof.
  destruct tr as [|p [|q tr]]; cbn; try tauto.
Qed.

Lemma steps_within_snoc d tr p q :
  steps_within d (tr ++ [p]) ->
  P5.dist (px p) (py p) (px q) (py q) <= d ->
  steps_within d ((tr ++ [p]) ++ [q]).
Proof.
  induction tr as [|a tr IH]; intros Hchain Hstep.
  - cbn. tauto.
  - destruct tr as [|b tr].
    + cbn in *. tauto.
    + cbn in Hchain. destruct Hchain as [Hab Hrest].
      cbn. split; [exact Hab|]. apply IH; assumption.
Qed.

Lemma dist_step x y dx dy :
  P5.dist x y (x + dx) (y + dy) = P5.mag (P5.createVector dx dy).
Proof.
  unfold P5.dist, P5.sq, P5.mag; cbn. f_equal. ring.
Qed.

Lemma moved_trail c :
  P5.mag (Cyclist.vel c) <= 2.0 ->
  steps_within 2.0 (Cyclist.trail c) -> trail_ends_here c ->
  steps_within 2.0 (Cyclist.trail (Cyclist.moved c))
  /\ trail_ends_here (Cyclist.moved c).
Proof.
  intros Hspeed Hchain Hend.
  set (q := mkPoint (Cyclist.x c + P5.vx (Cyclist.vel c))
                    (Cyclist.y c + P5.vy (Cyclist.vel c))).
  assert (Htrail : Cyclist.trail (Cyclist.moved c)
                   = Cyclist.trail_push (Cyclist.trail c) q) by reflexivity.
  assert (Hpos : mkPoint (Cyclist.x (Cyclist.moved c))
                         (Cyclist.y (Cyclist.moved c)) = q) by reflexivity.
  unfold trail_ends_here. rewrite Htrail, Hpos.
  destruct Hend as [Hnil | [tr Htr]].
  - rewrite Hnil. cbn. split; [exact I|]. right. now exists [].
  - rewrite Htr in *.
    assert (Hlong : steps_within 2.0 ((tr ++ [mkPoint (Cyclist.x c) (Cyclist.y c)])
                                      ++ [q])).
    { apply steps_within_snoc; [exact Hchain|]. unfold q. cbn [px py].
      rewrite dist_step. destruct (Cyclist.vel c); exact Hspeed. }
    unfold Cyclist.trail_push.
    destruct (80 <? length ((tr ++ [mkPoint (Cyclist.x c) (Cyclist.y c)])
                            ++ [q]))%nat.
    + split; [now apply steps_within_tl|]. right.
      destruct tr as [|a tr]; cbn; [now exists [] | now eexists].
    + split; [exact Hlong|]. right. now eexists.
Qed.

(** X14. The trail of a cyclist is a connected path of short steps: in
    every reachable state no two consecutive entries are more than 2.0
    apart, and the trail is empty or ends at the cyclist's current
    position.  A respawn never leaves a long segment behind, because it
    empties the trail. *)
Theorem trail_is_connected sk c :
  Cyclist.reachable sk c ->
  steps_within 2.0 (Cyclist.trail c) /\ trail_ends_here c.
Proof.
  induction 1 as [s c s' Hnew | g s c c' s' Hreach [IHchain IHend] Hframe].
  - apply respawn_inv in Hnew. destruct Hnew as (p & _ & -> & _).
    cbn. split; [exact I | now left].
  - unfold Cyclist.frame, bind in Hframe.
    destruct (Cyclist.perceive sk g c s) as [[c1 s1]|] eqn:Hp; [|discriminate].
    destruct (Cyclist.decide c1 s1) as [[c2 s2]|] eqn:Hd; [|discriminate].
    apply perceive_inv in Hp.
    destruct Hp as (Hx1 & Hy1 & _ & Ht1 & _ & [grad Hgrad] & _).
    destruct (decide_runs c1 grad s1 Hgrad)
      as (c3 & s3 & Hd' & Hx2 & Hy2 & Ht2 & _ & Hvel).
    rewrite Hd' in Hd. injection Hd as <- <-.
    assert (Hspeed : P5.mag (Cyclist.vel c3) <= 2.0)
      by (rewrite Hvel; apply limit_capped).
    assert (Hchain : steps_within 2.0 (Cyclist.trail c3))
      by (rewrite Ht2, Ht1; exact IHchain).
    assert (Hend : trail_ends_here c3).
    { unfold trail_ends_here in *. rewrite Ht2, Ht1, Hx2, Hx1, Hy2, Hy1.
      exact IHend. }
    destruct (moved_trail c3 Hspeed Hchain Hend) as [Hchain' Hend'].
    unfold Cyclist.act in Hframe.
    destruct (Cyclist.must_respawn sk (Cyclist.moved c3)).
    + apply respawn_inv in Hframe. destruct Hframe as (p & _ & -> & _).
      cbn. split; [exact I | now left].
    + injection Hframe as <- <-. split; assumption.
Qed.

(** ** A flat field *)

Lemma grid_get_const k g i j v :
  grid_const k g -> grid_get g i j = Some v -> v = k.
Proof.
  intros Hconst. unfold grid_get.
  destruct (nth_error g i) as [col|] eqn:Hcol; [|discriminate].
  intros Hv. unfold grid_const in Hconst. rewrite Forall_forall in Hconst.
  specialize (Hconst col (nth_error_In _ _ Hcol)).
  rewrite Forall_forall in Hconst. exact (Hconst v (nth_error_In _ _ Hv)).
Qed.

Lemma comfortAt_const sk g k x y :
  valid_sketch sk -> grid_dims sk g -> grid_const k g ->
  0 <= x < width sk -> 0 <= y < height sk ->
  comfortAt sk g x y = Some k.
Proof.
  intros Hv Hdims Hconst Hx Hy.
  destruct (comfortAt_total sk g x y Hv Hdims) as [v Heq].
  rewrite Heq. f_equal.
  rewrite comfortAt_inside in Heq by assumption.
  eapply grid_get_const; eassumption.
Qed.

(** X15. On a flat field the cyclist wanders.  If every cell of the grid
    holds the same value and the cyclist is at least 10 away from every
    edge of the playfield, [perceive] stores the zero gradient, and
    [decide] then replaces it by the direction drawn with two calls of
    [random(-0.5, 0.5)] and consumes exactly these two draws. *)
Theorem flat_field_wander sk g k c s :
  valid_sketch sk -> grid_dims sk g -> grid_const k g ->
  10 <= Cyclist.x c < width sk - 10 ->
  10 <= Cyclist.y c < height sk - 10 ->
  exists c1 c2,
    Cyclist.perceive sk g c s = Some (c1, s) /\
    Cyclist.perceivedGradient c1 = Some (P5.createVector 0 0) /\
    Cyclist.localComfort c1 = Some k /\
    Cyclist.decide c1 s = Some (c2, fun n => s (2 + n)%nat) /\
    Cyclist.vel c2
    = steer (Cyclist.vel c)
        (P5.createVector (s 0%nat - 0.5) (s 1%nat - 0.5)).
Proof.
  intros Hv Hdims Hconst Hx Hy.
  assert (Hp := perceive_eq sk g c s k k k k k
                  ltac:(apply comfortAt_const; (assumption || lra))
                  ltac:(apply comfortAt_const; (assumption || lra))
                  ltac:(apply comfortAt_const; (assumption || lra))
                  ltac:(apply comfortAt_const; (assumption || lra))
                  ltac:(apply comfortAt_const; (assumption || lra))).
  replace ((k - k) / (2 * 10)) with 0 in Hp by (unfold Rdiv; ring).
  eexists. eexists. split; [exact Hp|].
  split; [reflexivity|]. split; [reflexivity|].
  assert (Hflat : Rltb (P5.mag (P5.createVector 0 0)) 0.0005 = true).
  { apply Rltb_true. unfold P5.mag; cbn.
    rewrite Rmult_0_l, Rplus_0_l, sqrt_0. lra. }
  unfold Cyclist.decide, bind, lift, ret, random_range, rand; cbn.
  rewrite Hflat; cbn. split; [reflexivity|].
  unfold steer. cbn [Cyclist.vel].
  replace (s 0%nat * (0.5 - -0.5) + -0.5) with (s 0%nat - 0.5) by lra.
  replace (s 1%nat * (0.5 - -0.5) + -0.5) with (s 1%nat - 0.5) by lra.
  reflexivity.
Qed.

Lemma flat_field_wander_witness :
  let sk := setup (fun _ _ => 0) in
  let g := List.map (fun _ => List.map (fun _ => 0.5) (seq 0 (rows sk)))
                    (seq 0 (cols sk)) in
  exists c1 c2 s2,
    Cyclist.perceive sk g flat_cyclist (fun _ => 0.75)
    = Some (c1, fun _ => 0.75) /\
    Cyclist.decide c1 (fun _ => 0.75) = Some (c2, s2) /\
    Cyclist.vel c2
    = steer (Cyclist.vel flat_cyclist)
        (P5.createVector (0.75 - 0.5) (0.75 - 0.5)).
Proof.
  intros sk g.
  destruct (flat_field_wander sk g 0.5 flat_cyclist (fun _ => 0.75))
    as (c1 & c2 & Hp & _ & _ & Hd & Hvel).
  - apply valid_setup.
  - split.
    + unfold g. now rewrite length_map, length_seq.
    + apply Forall_forall. intros col Hin. unfold g in Hin.
      apply in_map_iff in Hin. destruct Hin as (i & <- & _).
      now rewrite length_map, length_seq.
  - apply Forall_forall. intros col Hin. unfold g in Hin.
    apply in_map_iff in Hin. destruct Hin as (i & <- & _).
    apply Forall_forall. intros v Hv.
    apply in_map_iff in Hv. destruct Hv as (j & <- & _). reflexivity.
  - cbn. lra.
  - cbn. lra.
  - exists c1, c2. eexists. split; [exact Hp|]. split; [exact Hd | exact Hvel].
Defined.

(** * The sketch as a whole *)

(** ** Array writes and the loops that fill the grid *)

Lemma array_set_nth {A : Type} (a a' : list A) j v :
  array_set a j v = Some a' ->
  forall i, nth_error a' i = if (i =? j)%nat then Some v else nth_error a i.
Proof.
  unfold array_set. intros Hset i.
  destruct (Nat.ltb_spec j (length a)) as [Hlt | Hge].
  - assert (Ha : a' = firstn j a ++ v :: skipn (S j) a) by congruence.
    subst a'. clear Hset. rewrite nth_error_app, length_firstn.
    replace (Nat.min j (length a)) with j by lia.
    destruct (Nat.ltb_spec i j) as [Hij | Hij].
    + rewrite nth_error_firstn.
      replace (i <? j)%nat with true by (symmetry; now apply Nat.ltb_lt).
      replace (i =? j)%nat with false by (symmetry; apply Nat.eqb_neq; lia).
      reflexivity.
    + destruct (Nat.eqb_spec i j) as [-> | Hne].
      * now rewrite Nat.sub_diag.
      * replace (i - j)%nat with (S (i - j - 1)) by lia.
        rewrite nth_error_cons_succ, nth_error_skipn. f_equal. lia.
  - destruct (Nat.eqb_spec j (length a)) as [-> | Hne]; [|discriminate].
    injection Hset as <-. rewrite nth_error_app.
    destruct (Nat.ltb_spec i (length a)) as [Hi | Hi].
    + replace (i =? length a)%nat with false
        by (symmetry; apply Nat.eqb_neq; lia).
      reflexivity.
    + destruct (Nat.eqb_spec i (length a)) as [-> | Hne].
      * now rewrite Nat.sub_diag.
      * replace (i - length a)%nat with (S (i - length a - 1)) by lia.
        cbn [nth_error]. rewrite nth_error_nil. symmetry.
        apply nth_error_None. lia.
Qed.

Lemma array_set_length {A : Type} (a a' : list A) j v :
  array_set a j v = Some a' -> length a' = Nat.max (length a) (S j).
Proof.
  unfold array_set.
  destruct (Nat.ltb_spec j (length a)) as [Hlt | Hge].
  - intros H.
    assert (Ha : a' = firstn j a ++ v :: skipn (S j) a) by congruence.
    subst a'. clear H.
    rewrite length_app, length_firstn. cbn [length]. rewrite length_skipn. lia.
  - destruct (Nat.eqb_spec j (length a)) as [-> | Hne]; [|discriminate].
    intros H. injection H as <-. rewrite length_app. cbn. lia.
Qed.

Lemma array_set_runs {A : Type} (a : list A) j v :
  (j <= length a)%nat -> exists a', array_set a j v = Some a'.
Proof.
  intros Hj. unfold array_set.
  destruct (Nat.ltb_spec j (length a)); [eexists; reflexivity|].
  replace (j =? length a)%nat with true by (symmetry; apply Nat.eqb_eq; lia).
  eexists; reflexivity.
Qed.

Lemma write_loop_S {A : Type} (f : nat -> A) n a :
  write_loop f (S n) a
  = and_then (write_loop f n a) (fun a => array_set a n (f n)).
Proof. unfold write_loop. now rewrite seq_S, fold_left_app. Qed.

(** A write loop always runs through: it overwrites what the array holds
    below [n], extends the array up to [n] if it is shorter, and leaves
    the rest. *)
Lemma write_loop_spec {A : Type} (f : nat -> A) n : forall a,
  exists a',
    write_loop f n a = Some a' /\
    length a' = Nat.max n (length a) /\
    forall i, nth_error a' i
              = if (i <? n)%nat then Some (f i) else nth_error a i.
Proof.
  induction n as [|n IH]; intros a.
  - exists a. repeat split.
  - destruct (IH a) as (a1 & Hrun & Hlen & Hnth).
    destruct (array_set_runs a1 n (f n)) as (a2 & Hset); [lia|].
    exists a2. rewrite write_loop_S, Hrun. cbn [and_then].
    split; [exact Hset|]. split.
    + rewrite (array_set_length _ _ _ _ Hset). lia.
    + intros i. rewrite (array_set_nth _ _ _ _ Hset), Hnth.
      destruct (Nat.eqb_spec i n) as [-> | Hne].
      * replace (n <? S n)%nat with true by (symmetry; apply Nat.ltb_lt; lia).
        reflexivity.
      * destruct (Nat.ltb_spec i n); destruct (Nat.ltb_spec i (S n));
          (reflexivity || lia).
Qed.

Lemma update_loop_S {A : Type} (body : nat -> A -> option A) n g :
  update_loop body (S n) g
  = and_then (update_loop body n g) (fun g =>
    and_then (nth_error g n) (fun col =>
    and_then (body n col) (fun col' => array_set g n col'))).
Proof. unfold update_loop. now rewrite seq_S, fold_left_app. Qed.

(** An update loop over [n] elements runs through when the array has
    them, and then has updated exactly these; it stops on the first
    missing element otherwise. *)
Lemma update_loop_spec {A : Type} (body : nat -> A -> option A) g :
  (forall i col, exists col', body i col = Some col') ->
  forall n,
    ((n <= length g)%nat ->
     exists g',
       update_loop body n g = Some g' /\
       length g' = length g /\
       forall i, nth_error g' i
                 = if (i <? n)%nat then and_then (nth_error g i) (body i)
                   else nth_error g i) /\
    ((length g < n)%nat -> update_loop body n g = None).
Proof.
  intros Hbody. induction n as [|n [IHok IHfail]].
  - split; [|lia]. intros _. exists g. repeat split.
  - split.
    + intros Hn. destruct IHok as (g1 & Hrun & Hlen & Hnth); [lia|].
      destruct (nth_error g n) as [col|] eqn:Hcol;
        [|apply nth_error_None in Hcol; lia].
      destruct (Hbody n col) as (col' & Hcol').
      assert (Hread : nth_error g1 n = Some col).
      { rewrite Hnth, Nat.ltb_irrefl. exact Hcol. }
      destruct (array_set_runs g1 n col') as (g2 & Hset); [lia|].
      exists g2. rewrite update_loop_S, Hrun. cbn [and_then].
      rewrite Hread. cbn [and_then]. rewrite Hcol'. cbn [and_then].
      split; [exact Hset|]. split.
      * rewrite (array_set_length _ _ _ _ Hset). lia.
      * intros i. rewrite (array_set_nth _ _ _ _ Hset), Hnth.
        destruct (Nat.eqb_spec i n) as [-> | Hne].
        -- replace (n <? S n)%nat with true
             by (symmetry; apply Nat.ltb_lt; lia).
           rewrite Hcol. cbn [and_then]. now rewrite Hcol'.
        -- destruct (Nat.ltb_spec i n); destruct (Nat.ltb_spec i (S n));
             (reflexivity || lia).
    + intros Hn. rewrite update_loop_S.
      destruct (Nat.lt_ge_cases (length g) n) as [Hlt | Hge].
      * now rewrite IHfail.
      * destruct IHok as (g1 & Hrun & Hlen & _); [lia|].
        rewrite Hrun. cbn [and_then].
        replace (nth_error g1 n) with (@None A); [reflexivity|].
        symmetry. apply nth_error_None. lia.
Qed.

Lemma nth_error_map_seq {A : Type} (f : nat -> A) n k :
  nth_error (List.map f (seq 0 n)) k
  = if (k <? n)%nat then Some (f k) else None.
Proof.
  destruct (Nat.ltb_spec k n) as [Hk | Hk].
  - rewrite nth_error_map, nth_error_nth' with (d := 0%nat)
      by (rewrite length_seq; exact Hk).
    now rewrite seq_nth.
  - apply nth_error_None. now rewrite length_map, length_seq.
Qed.

Lemma write_loop_full {A : Type} (f : nat -> A) n a :
  (length a <= n)%nat -> write_loop f n a = Some (List.map f (seq 0 n)).
Proof.
  intros Hlen. destruct (write_loop_spec f n a) as (a' & Hrun & _ & Hnth).
  rewrite Hrun. f_equal. apply nth_error_ext. intros i.
  rewrite Hnth, nth_error_map_seq.
  destruct (Nat.ltb_spec i n); [reflexivity|].
  apply nth_error_None. lia.
Qed.

Lemma act_in_place_dims sk mode frameCount g :
  grid_dims sk g ->
  Runtime.act_in_place sk mode frameCount g
  = Some (MapAgent.act sk mode frameCount).
Proof.
  intros [Hlen Hcols]. unfold Runtime.act_in_place.
  set (body := fun i col =>
         write_loop (fun j => MapAgent.cell_comfort sk mode frameCount i j)
                    (rows sk) col).
  destruct (update_loop_spec body g) with (n := cols sk) as [Hok _].
  { intros i col. unfold body.
    destruct (write_loop_spec
                (fun j => MapAgent.cell_comfort sk mode frameCount i j)
                (rows sk) col) as (col' & Hrun & _).
    now exists col'. }
  destruct Hok as (g' & Hrun & Hlen' & Hnth); [lia|].
  rewrite Hrun. apply (f_equal (@Some (list (list R)))).
  apply nth_error_ext. intros i.
  unfold MapAgent.act. rewrite Hnth, nth_error_map_seq.
  destruct (Nat.ltb_spec i (cols sk)) as [Hi | Hi].
  - destruct (nth_error g i) as [col|] eqn:Hcol;
      [|apply nth_error_None in Hcol; lia].
    cbn [and_then]. unfold body. apply write_loop_full.
    rewrite Forall_forall in Hcols.
    rewrite (Hcols col (nth_error_In _ _ Hcol)). lia.
  - apply nth_error_None. lia.
Qed.

Lemma act_in_place_fails sk mode frameCount g :
  (length g < cols sk)%nat -> Runtime.act_in_place sk mode frameCount g = None.
Proof.
  intros Hlen. unfold Runtime.act_in_place.
  apply update_loop_spec; [|exact Hlen].
  intros i col.
  destruct (write_loop_spec
              (fun j => MapAgent.cell_comfort sk mode frameCount i j)
              (rows sk) col) as (col' & Hrun & _).
  now exists col'.
Qed.

Lemma init_columns (nrows n : nat) :
  fold_left
    (fun acc i =>
       and_then acc (fun g =>
       and_then (array_set g i []) (fun g =>
       and_then (nth_error g i) (fun col =>
       and_then (write_loop (fun _ => 0) nrows col) (fun col' =>
       array_set g i col')))))
    (seq 0 n) (Some [])
  = Some (repeat (repeat 0 nrows) n).
Proof.
  induction n as [|n IH]; [reflexivity|].
  rewrite seq_S, fold_left_app, IH. cbn [fold_left and_then Nat.add].
  set (zcol := repeat 0 nrows). set (g := repeat zcol n).
  assert (Hg : length g = n) by apply repeat_length.
  destruct (array_set_runs g n (@nil R)) as (g1 & Hset1); [lia|].
  rewrite Hset1. cbn [and_then].
  pose proof (array_set_nth _ _ _ _ Hset1) as Hnth1.
  pose proof (array_set_length _ _ _ _ Hset1) as Hlen1.
  rewrite (Hnth1 n), Nat.eqb_refl. cbn [and_then].
  rewrite write_loop_full by (cbn; lia). cbn [and_then].
  assert (Hz : List.map (fun _ : nat => 0) (seq 0 nrows) = zcol).
  { apply nth_error_ext. intros i. rewrite nth_error_map_seq. unfold zcol.
    destruct (Nat.ltb_spec i nrows) as [Hi | Hi].
    - symmetry. now apply nth_error_repeat.
    - symmetry. apply nth_error_None. now rewrite repeat_length. }
  rewrite Hz.
  destruct (array_set_runs g1 n zcol) as (g2 & Hset2); [lia|].
  rewrite Hset2. f_equal. apply nth_error_ext. intros i.
  rewrite (array_set_nth _ _ _ _ Hset2), Hnth1.
  destruct (Nat.eqb_spec i n) as [-> | Hne].
  - symmetry. apply nth_error_repeat. lia.
  - destruct (Nat.lt_ge_cases i n) as [Hi | Hi].
    + unfold g. rewrite !nth_error_repeat by lia. reflexivity.
    + replace (nth_error g i) with (@None (list R))
        by (symmetry; apply nth_error_None; lia).
      symmetry. apply nth_error_None. rewrite repeat_length. lia.
Qed.

Lemma init_comfortMap_zero sk :
  Runtime.init_comfortMap sk = Some (repeat (repeat 0 (rows sk)) (cols sk)).
Proof. apply init_columns. Qed.

Lemma zero_grid_dims sk :
  grid_dims sk (repeat (repeat 0 (rows sk)) (cols sk))
  /\ grid_const 0 (repeat (repeat 0 (rows sk)) (cols sk)).
Proof.
  split; [split|].
  - apply repeat_length.
  - apply Forall_forall. intros col Hin. apply repeat_spec in Hin. subst col.
    apply repeat_length.
  - apply Forall_forall. intros col Hin. apply repeat_spec in Hin. subst col.
    apply Forall_forall. intros v Hv. now apply repeat_spec in Hv.
Qed.

(** X16. [setup] builds a grid of [cols] by [rows] zeros, and a pass of
    [MapAgent.act] over any grid of that shape overwrites every cell: the
    grid it leaves is the same whatever the grid held before.  Run on a
    grid with fewer than [cols] columns (as before [setup]), the pass stops
    on the read of the first missing column. *)
Theorem grid_fully_overwritten sk mode frameCount :
  (exists g0, Runtime.init_comfortMap sk = Some g0
              /\ grid_dims sk g0 /\ grid_const 0 g0) /\
  (forall g, grid_dims sk g ->
     Runtime.act_in_place sk mode frameCount g
     = Some (MapAgent.act sk mode frameCount)) /\
  (forall g, (length g < cols sk)%nat ->
     Runtime.act_in_place sk mode frameCount g = None).
Proof.
  split.
  - eexists. split; [apply init_comfortMap_zero | apply zero_grid_dims].
  - split.
    + intros g. apply act_in_place_dims.
    + intros g. apply act_in_place_fails.
Qed.

Lemma grid_fully_overwritten_witness :
  let sk := setup (fun _ _ => 0.5) in
  Runtime.act_in_place sk Rain 1 (repeat (repeat 0 (rows sk)) (cols sk))
  = Some (MapAgent.act sk Rain 1) /\
  Runtime.act_in_place sk Rain 1 [] = None.
Proof.
  intros sk.
  destruct (grid_fully_overwritten sk Rain 1) as (_ & Hok & Hfail).
  split.
  - apply Hok, zero_grid_dims.
  - apply Hfail. cbn. lia.
Defined.

(** ** Loops over the cyclists *)

Lemma for_of_runs {A B : Type} (f : A -> M B) (Q : A -> Prop) (Q' : B -> Prop) :
  (forall c s, Q c -> unit_tape s ->
     exists c' s', f c s = Some (c', s') /\ unit_tape s' /\ Q' c') ->
  forall cs s, Forall Q cs -> unit_tape s ->
    exists cs' s',
      for_of cs f s = Some (cs', s') /\ unit_tape s' /\
      length cs' = length cs /\ Forall Q' cs'.
Proof.
  intros Hf. induction cs as [|c cs IH]; intros s Hcs Hs.
  - exists [], s. split; [reflexivity|]. split; [exact Hs|].
    split; [reflexivity | constructor].
  - inversion Hcs as [|? ? Hc Hrest]; subst.
    destruct (Hf c s Hc Hs) as (c' & s1 & Hrun & Hs1 & Hc').
    destruct (IH s1 Hrest Hs1) as (cs' & s2 & Hruns & Hs2 & Hlen & Hall).
    exists (c' :: cs'), s2. cbn [for_of]. unfold bind, ret.
    rewrite Hrun, Hruns. split; [reflexivity|]. split; [exact Hs2|].
    split; [cbn; lia | now constructor].
Qed.

Lemma push_times_runs {A : Type} (make : M A) (Q : A -> Prop) :
  (forall s, unit_tape s ->
     exists c s', make s = Some (c, s') /\ unit_tape s' /\ Q c) ->
  forall n cs s, Forall Q cs -> unit_tape s ->
    exists cs' s',
      push_times n make cs s = Some (cs', s') /\ unit_tape s' /\
      length cs' = (length cs + n)%nat /\ Forall Q cs'.
Proof.
  intros Hmake. induction n as [|n IH]; intros cs s Hcs Hs.
  - exists cs, s. split; [reflexivity|]. split; [exact Hs|].
    split; [lia | exact Hcs].
  - destruct (Hmake s Hs) as (c & s1 & Hrun & Hs1 & Hc).
    destruct (IH (cs ++ [c]) s1) as (cs' & s2 & Hruns & Hs2 & Hlen & Hall).
    { apply Forall_app. split; [exact Hcs | now constructor]. }
    { exact Hs1. }
    exists cs', s2. cbn [push_times]. unfold bind.
    rewrite Hrun. split; [exact Hruns|]. split; [exact Hs2|].
    split; [|exact Hall]. rewrite Hlen, length_app. cbn. lia.
Qed.

Lemma new_ok sk s :
  ecoPods sk <> [] -> pods_inside sk -> unit_tape s ->
  exists c s', Cyclist.new sk s = Some (c, s') /\ unit_tape s'
               /\ cyclist_ok sk c.
Proof.
  intros Hne Hpods Hs. unfold Cyclist.new.
  destruct (respawn_runs_unit sk
              (Cyclist.mk 0 0 (P5.createVector 0 0) [] None None) s Hne Hs)
    as (c & s' & Hrun).
  exists c, s'. split; [exact Hrun|].
  split; [eapply respawn_tape; eassumption|].
  destruct (respawn_in_margin _ _ _ _ _ Hpods Hs Hrun) as [Hm Hv].
  apply respawn_inv in Hrun. destruct Hrun as (p & _ & -> & _).
  repeat split; try apply Hm; try exact Hv. cbn. lia.
Qed.

Lemma frame_ok sk g c s :
  valid_sketch sk -> grid_dims sk g -> ecoPods sk <> [] -> pods_inside sk ->
  cyclist_ok sk c -> unit_tape s ->
  exists c' s', Cyclist.frame sk g c s = Some (c', s') /\ unit_tape s'
                /\ cyclist_ok sk c'.
Proof.
  intros Hv Hdims Hne Hpods (_ & Htrail & _) Hs.
  destruct (perceive_runs sk g c s Hv Hdims) as (c1 & Hp).
  destruct (perceive_inv _ _ _ _ _ _ Hp)
    as (_ & _ & _ & Ht1 & _ & [grad Hgrad] & _).
  destruct (decide_runs c1 grad s Hgrad)
    as (c2 & s2 & Hd & _ & _ & Ht2 & _ & Hvel).
  pose proof (decide_tape _ _ _ _ Hd Hs) as Hs2.
  assert (Hspeed : P5.mag (Cyclist.vel c2) <= 2.0)
    by (rewrite Hvel; apply limit_capped).
  unfold Cyclist.frame, bind. rewrite Hp, Hd. unfold Cyclist.act.
  destruct (Cyclist.must_respawn sk (Cyclist.moved c2)) eqn:Hm.
  - destruct (respawn_runs_unit sk (Cyclist.moved c2) s2 Hne Hs2)
      as (c3 & s3 & Hr).
    exists c3, s3. split; [exact Hr|].
    split; [eapply respawn_tape; eassumption|].
    destruct (respawn_in_margin _ _ _ _ _ Hpods Hs2 Hr) as [Hmar Hv3].
    apply respawn_inv in Hr. destruct Hr as (p & _ & -> & _).
    repeat split; try apply Hmar; try exact Hv3. cbn. lia.
  - exists (Cyclist.moved c2), s2. split; [reflexivity|].
    split; [exact Hs2|]. apply must_respawn_false in Hm.
    split; [unfold in_margin; tauto|]. split; [|exact Hspeed].
    cbn. apply trail_push_length. rewrite Ht2, Ht1. exact Htrail.
Qed.

(** ** Keys *)

Lemma keyPressed_weather key w :
  Runtime.weather (Runtime.keyPressed key w)
  = match key_weather key with
    | Some w' => w'
    | None => Runtime.weather w
    end.
Proof.
  unfold Runtime.keyPressed, key_weather. cbn.
  destruct (String.eqb_spec key "3"%string) as [-> | H3]; [reflexivity|].
  destruct (String.eqb_spec key "2"%string) as [-> | H2]; [reflexivity|].
  destruct (String.eqb key "1"%string); reflexivity.
Qed.

Lemma keys_fold typed : forall w,
  let w' := fold_left (fun w key => Runtime.keyPressed key w) typed w in
  Runtime.weather w' = last_weather (Runtime.weather w) typed /\
  Runtime.mode w' = Runtime.mode w /\
  Runtime.comfortMap w' = Runtime.comfortMap w /\
  Runtime.cyclists w' = Runtime.cyclists w.
Proof.
  induction typed as [|key typed IH]; intros w; cbn zeta; [now repeat split|].
  cbn [fold_left]. destruct (IH (Runtime.keyPressed key w)) as (Hw & Hm & Hg & Hc).
  cbn zeta in *. rewrite Hw, Hm, Hg, Hc.
  unfold last_weather. cbn [fold_left]. rewrite keyPressed_weather.
  now repeat split.
Qed.

(** ** draw and the run of the sketch *)

Lemma draw_inv sk frameCount w s w' s' :
  Runtime.draw sk frameCount w s = Some (w', s') ->
  Runtime.weather w' = Runtime.weather w /\
  Runtime.mode w' = Runtime.weather w /\
  length (Runtime.cyclists w') = length (Runtime.cyclists w) /\
  (grid_dims sk (Runtime.comfortMap w) ->
   Runtime.comfortMap w' = MapAgent.act sk (Runtime.weather w) frameCount).
Proof.
  unfold Runtime.draw, bind, lift, ret.
  destruct (Runtime.act_in_place sk (Runtime.weather w) frameCount
              (Runtime.comfortMap w)) as [g|] eqn:Hact; [|discriminate].
  destruct (for_of (Runtime.cyclists w) (Cyclist.frame sk g) s)
    as [[cs s1]|] eqn:Hcs; [|discriminate].
  intros H. injection H as <- <-. cbn.
  split; [reflexivity|]. split; [reflexivity|]. split.
  - clear Hact. revert s cs s1 Hcs.
    induction (Runtime.cyclists w) as [|c l IH]; intros s cs s1 Hcs.
    + cbn in Hcs. unfold ret in Hcs. injection Hcs as <- <-. reflexivity.
    + cbn [for_of] in Hcs. unfold bind, ret in Hcs.
      destruct (Cyclist.frame sk g c s) as [[c' s2]|]; [|discriminate].
      destruct (for_of l (Cyclist.frame sk g) s2) as [[cs' s3]|] eqn:Hl;
        [|discriminate].
      injection Hcs as <- <-. cbn. f_equal. eapply IH. exact Hl.
  - intros Hdims. rewrite act_in_place_dims in Hact by exact Hdims.
    congruence.
Qed.

Lemma draw_ok sk frameCount w s :
  valid_sketch sk -> ecoPods sk <> [] -> pods_inside sk ->
  world_ok sk w -> unit_tape s ->
  exists w' s', Runtime.draw sk frameCount w s = Some (w', s')
                /\ unit_tape s' /\ world_ok sk w'.
Proof.
  intros Hv Hne Hpods (Hn & Hdims & _ & Hcs) Hs.
  unfold Runtime.draw, bind, lift.
  rewrite act_in_place_dims by exact Hdims. unfold ret at 1.
  set (g := MapAgent.act sk (Runtime.weather w) frameCount).
  destruct (for_of_runs (Cyclist.frame sk g) (cyclist_ok sk) (cyclist_ok sk))
    with (cs := Runtime.cyclists w) (s := s)
    as (cs' & s' & Hrun & Hs' & Hlen & Hall); [|exact Hcs | exact Hs|].
  { intros c s0 Hc Hs0.
    apply frame_ok; (assumption || apply act_dims). }
  rewrite Hrun. eexists. eexists. split; [reflexivity|].
  split; [exact Hs'|]. unfold world_ok; cbn.
  split; [congruence|]. split; [apply act_dims|].
  split; [apply act_unit | exact Hall].
Qed.

Lemma keys_world_ok sk typed w :
  world_ok sk w ->
  world_ok sk (fold_left (fun w key => Runtime.keyPressed key w) typed w).
Proof.
  intros Hw. destruct (keys_fold typed w) as (_ & _ & Hg & Hc).
  cbn zeta in *. unfold world_ok in *. now rewrite Hg, Hc.
Qed.

Lemma run_ok sk keys : forall frameCount w s,
  valid_sketch sk -> ecoPods sk <> [] -> pods_inside sk ->
  world_ok sk w -> unit_tape s ->
  exists w' s', Runtime.run sk keys frameCount w s = Some (w', s')
                /\ unit_tape s' /\ world_ok sk w'.
Proof.
  induction keys as [|typed keys IH]; intros frameCount w s Hv Hne Hpods Hw Hs.
  - exists w, s. split; [reflexivity|]. split; assumption.
  - cbn [Runtime.run]. unfold bind.
    destruct (draw_ok sk (S frameCount)
                (fold_left (fun w key => Runtime.keyPressed key w) typed w) s)
      as (w1 & s1 & Hdraw & Hs1 & Hw1); try assumption.
    { now apply keys_world_ok. }
    rewrite Hdraw. now apply IH.
Qed.

Lemma setup_ok sk s :
  ecoPods sk <> [] -> pods_inside sk -> unit_tape s ->
  exists w s', Runtime.setup sk s = Some (w, s') /\ unit_tape s'
               /\ world_ok sk w.
Proof.
  intros Hne Hpods Hs. unfold Runtime.setup, bind, lift.
  rewrite init_comfortMap_zero. unfold ret at 1.
  destruct (push_times_runs (Cyclist.new sk) (cyclist_ok sk))
    with (n := Runtime.numCyclists) (cs := @nil Cyclist.t) (s := s)
    as (cs & s' & Hrun & Hs' & Hlen & Hall); [|constructor | exact Hs|].
  { intros s0 Hs0. now apply new_ok. }
  rewrite Hrun. eexists. eexists. split; [reflexivity|].
  split; [exact Hs'|]. unfold world_ok; cbn.
  split; [exact Hlen|]. destruct (zero_grid_dims sk) as [Hdims Hzero].
  split; [exact Hdims|]. split; [|exact Hall].
  unfold grid_unit. unfold grid_const in Hzero.
  eapply Forall_impl; [|exact Hzero]. intros col Hcol.
  eapply Forall_impl; [|exact Hcol]. intros v ->. lra.
Qed.

(** X17. The sketch never stops on an error and keeps its globals in
    shape.  With a valid configuration, at least one eco-pod, pods at
    least 20 inside the playfield and random draws in [[0, 1)], [setup]
    succeeds, and so does every later frame, whatever keys are typed in
    between; afterwards there are still 12 cyclists, each within the
    margin, no faster than 2.0 and with a trail of at most 80 entries,
    and the grid has [cols] by [rows] entries, all in [[0, 1]]. *)
Theorem sketch_never_fails sk s :
  valid_sketch sk -> ecoPods sk <> [] -> pods_inside sk -> unit_tape s ->
  exists w0 s0,
    Runtime.setup sk s = Some (w0, s0) /\ world_ok sk w0 /\
    forall keys, exists w s',
      Runtime.run sk keys 0 w0 s0 = Some (w, s') /\ world_ok sk w.
Proof.
  intros Hv Hne Hpods Hs.
  destruct (setup_ok sk s Hne Hpods Hs) as (w0 & s0 & Hrun & Hs0 & Hw0).
  exists w0, s0. split; [exact Hrun|]. split; [exact Hw0|].
  intros keys.
  destruct (run_ok sk keys 0 w0 s0 Hv Hne Hpods Hw0 Hs0)
    as (w & s' & Hruns & _ & Hw).
  now exists w, s'.
Qed.

Lemma sketch_never_fails_witness :
  let sk := setup (fun _ _ => 0.5) in
  exists w0 s0 w s',
    Runtime.setup sk (fun _ => 0.5) = Some (w0, s0) /\
    Runtime.run sk [["2"%string]; []; ["x"%string; "3"%string]] 0 w0 s0
    = Some (w, s') /\
    world_ok sk w.
Proof.
  intros sk.
  destruct (sketch_never_fails sk (fun _ => 0.5))
    as (w0 & s0 & Hsetup & _ & Hrun).
  - apply valid_setup.
  - discriminate.
  - apply pods_inside_setup.
  - intros k. lra.
  - destruct (Hrun [["2"%string]; []; ["x"%string; "3"%string]])
      as (w & s' & Hruns & Hw).
    exists w0, s0, w, s'. split; [exact Hsetup|]. split; [exact Hruns | exact Hw].
Defined.

Lemma last_weather_app w0 typed typed' :
  last_weather w0 (typed ++ typed') = last_weather (last_weather w0 typed) typed'.
Proof. unfold last_weather. apply fold_left_app. Qed.

Lemma run_inv sk keys : forall frameCount w s w' s',
  Runtime.run sk keys frameCount w s = Some (w', s') ->
  Runtime.weather w' = last_weather (Runtime.weather w) (concat keys) /\
  (keys <> [] -> grid_dims sk (Runtime.comfortMap w) ->
   Runtime.mode w' = Runtime.weather w' /\
   Runtime.comfortMap w'
   = MapAgent.act sk (Runtime.weather w') (frameCount + length keys)).
Proof.
  induction keys as [|typed keys IH]; intros frameCount w s w' s' Hrun.
  - cbn in Hrun. unfold ret in Hrun. injection Hrun as <- <-.
    split; [reflexivity | congruence].
  - cbn [Runtime.run] in Hrun. unfold bind in Hrun.
    set (w1 := fold_left (fun w key => Runtime.keyPressed key w) typed w) in *.
    destruct (Runtime.draw sk (S frameCount) w1 s) as [[w2 s2]|] eqn:Hdraw;
      [|discriminate].
    destruct (keys_fold typed w) as (Hw1 & _ & Hg1 & _). cbn zeta in *.
    fold w1 in Hw1, Hg1.
    destruct (draw_inv _ _ _ _ _ _ Hdraw) as (Hw2 & Hm2 & _ & Hg2).
    destruct (IH _ _ _ _ _ Hrun) as (Hw' & Hlast).
    assert (Hweather : Runtime.weather w'
                       = last_weather (Runtime.weather w) (concat (typed :: keys))).
    { cbn [concat]. rewrite last_weather_app, <- Hw1, <- Hw2. exact Hw'. }
    split; [exact Hweather|].
    intros _ Hdims. rewrite <- Hg1 in Hdims. specialize (Hg2 Hdims).
    destruct keys as [|typed' keys].
    + cbn in Hrun. unfold ret in Hrun. injection Hrun as <- <-.
      cbn [length]. rewrite Nat.add_1_r.
      split; [congruence|]. rewrite Hg2. now rewrite Hw2.
    + destruct Hlast as (Hmode & Hgrid); [discriminate | |].
      { rewrite Hg2. apply act_dims. }
      split; [exact Hmode|]. rewrite Hgrid. f_equal. cbn [length]. lia.
Qed.

(** X18. The last weather key wins.  A key other than 1, 2 or 3 leaves
    the globals as they are.  After any run of frames, the weather is the
    one selected by the last of the keys 1, 2, 3 typed so far (or the
    initial one); and when at least one frame was drawn from a [cols] by
    [rows] grid, the mode of the map agent is that weather and the grid is
    the one [MapAgent.act] computes for it at the last frame count. *)
Theorem last_key_wins sk :
  (forall key w, key_weather key = None -> Runtime.keyPressed key w = w) /\
  (forall key w,
     Runtime.weather (Runtime.keyPressed key w)
     = match key_weather key with
       | Some w' => w'
       | None => Runtime.weather w
       end) /\
  (forall keys frameCount w s w' s',
     Runtime.run sk keys frameCount w s = Some (w', s') ->
     Runtime.weather w' = last_weather (Runtime.weather w) (concat keys) /\
     (keys <> [] -> grid_dims sk (Runtime.comfortMap w) ->
      Runtime.mode w' = Runtime.weather w' /\
      Runtime.comfortMap w'
      = MapAgent.act sk (Runtime.weather w') (frameCount + length keys))).
Proof.
  split.
  - intros key [we mo g cs]. unfold key_weather, Runtime.keyPressed. cbn.
    destruct (String.eqb key "1"%string); [discriminate|].
    destruct (String.eqb key "2"%string); [discriminate|].
    destruct (String.eqb key "3"%string); [discriminate|].
    reflexivity.
  - split; [apply keyPressed_weather|].
    intros keys frameCount w s w' s'. apply run_inv.
Qed.

Lemma last_key_wins_witness :
  let sk := setup (fun _ _ => 0.5) in
  exists w0 s0 w s',
    Runtime.setup sk (fun _ => 0.5) = Some (w0, s0) /\
    Runtime.run sk [["2"%string]; []; ["x"%string; "3"%string]] 0 w0 s0
    = Some (w, s') /\
    Runtime.weather w = Heat /\ Runtime.mode w = Heat /\
    Runtime.comfortMap w = MapAgent.act sk Heat 3.
Proof.
  intros sk.
  assert (Hs : unit_tape (fun _ => 0.5)) by (intros k; lra).
  destruct (setup_ok sk (fun _ => 0.5)) as (w0 & s0 & Hsetup & Hs0 & Hw0);
    [discriminate | apply pods_inside_setup | exact Hs |].
  destruct (run_ok sk [["2"%string]; []; ["x"%string; "3"%string]] 0 w0 s0)
    as (w & s' & Hrun & _ & _);
    [apply valid_setup | discriminate | apply pods_inside_setup
     | exact Hw0 | exact Hs0 |].
  exists w0, s0, w, s'. split; [exact Hsetup|]. split; [exact Hrun|].
  destruct (last_key_wins sk) as (_ & _ & Hlast).
  destruct (Hlast _ _ _ _ _ _ Hrun) as (Hweather & Hgrid).
  assert (Hinit : Runtime.weather w0 = Sunny).
  { unfold Runtime.setup, bind, lift in Hsetup.
    rewrite init_comfortMap_zero in Hsetup. unfold ret at 1 in Hsetup.
    destruct (push_times Runtime.numCyclists (Cyclist.new sk) [] (fun _ => 0.5))
      as [[cs s1]|]; [|discriminate].
    unfold ret in Hsetup. injection Hsetup as <- _. reflexivity. }
  rewrite Hinit in Hweather. cbn in Hweather.
  destruct Hgrid as (Hmode & Hmap); [discriminate | apply Hw0 |].
  rewrite Hweather in Hmode, Hmap.
  split; [exact Hweather|]. split; [exact Hmode | exact Hmap].
Defined.

(** * Reading back what the pass wrote *)

Lemma floor_cell (cw x : R) (i : nat) :
  0 < cw -> INR i * cw <= x < (INR i + 1) * cw ->
  P5.floor (x / cw) = Z.of_nat i.
Proof.
  intros Hcw Hx. unfold P5.floor. apply Zfloor_eq.
  rewrite <- INR_IZR_INZ.
  assert (Hq : x = (x / cw) * cw) by (field; lra).
  split.
  - apply Rmult_le_reg_r with (r := cw); [exact Hcw|]. rewrite <- Hq. lra.
  - apply Rmult_lt_reg_r with (r := cw); [exact Hcw|]. rewrite <- Hq. lra.
Qed.

Lemma cell_inside (len : R) (n i : nat) (x : R) :
  (i < n)%nat -> 0 < len ->
  INR i * (len / INR n) <= x < (INR i + 1) * (len / INR n) ->
  0 < len / INR n /\ 0 <= x < len.
Proof.
  intros Hi Hlen Hx.
  assert (Hn : 0 < INR n) by (apply lt_0_INR; lia).
  assert (Hc : 0 < len / INR n) by now apply Rdiv_lt_0_compat.
  split; [exact Hc|].
  pose proof (pos_INR i) as Hi0.
  assert (Hi1 : INR i + 1 <= INR n).
  { rewrite <- S_INR. apply le_INR. lia. }
  assert (Hfull : INR n * (len / INR n) = len) by (field; lra).
  split; [nra|].
  assert ((INR i + 1) * (len / INR n) <= INR n * (len / INR n))
    by (apply Rmult_le_compat_r; lra).
  lra.
Qed.

Lemma comfortAt_in_cell sk g i j x y :
  valid_sketch sk -> (i < cols sk)%nat -> (j < rows sk)%nat ->
  INR i * cellW sk <= x < (INR i + 1) * cellW sk ->
  INR j * cellH sk <= y < (INR j + 1) * cellH sk ->
  comfortAt sk g x y = grid_get g i j.
Proof.
  intros (Hc & Hr & Hw & Hh) Hi Hj Hx Hy.
  destruct (cell_inside (width sk) (cols sk) i x Hi Hw Hx) as [HcW Hxin].
  destruct (cell_inside (height sk) (rows sk) j y Hj Hh Hy) as [HcH Hyin].
  rewrite comfortAt_inside by assumption.
  rewrite (floor_cell (cellW sk) x i HcW Hx).
  rewrite (floor_cell (cellH sk) y j HcH Hy).
  unfold P5.constrainZ.
  rewrite !Z.min_l, !Z.max_l by lia. now rewrite !Nat2Z.id.
Qed.

(** X19. What the pass writes is what the lookup reads.  Anywhere in the
    rectangle of cell [(i, j)], left and top edge included, [comfortAt]
    returns the entry [(i, j)] of the grid; so on the grid of a pass it
    returns the comfort computed for that cell, in particular at the cell
    centre where the pass evaluated the field. *)
Theorem comfortAt_reads_cell sk mode frameCount i j :
  valid_sketch sk -> (i < cols sk)%nat -> (j < rows sk)%nat ->
  (forall g x y,
     INR i * cellW sk <= x < (INR i + 1) * cellW sk ->
     INR j * cellH sk <= y < (INR j + 1) * cellH sk ->
     comfortAt sk g x y = grid_get g i j) /\
  comfortAt sk (MapAgent.act sk mode frameCount) (cell_x sk i) (cell_y sk j)
  = Some (MapAgent.cell_comfort sk mode frameCount i j).
Proof.
  intros Hv Hi Hj. split.
  - intros g x y. now apply comfortAt_in_cell.
  - pose proof Hv as (Hc & Hr & Hw & Hh).
    assert (HcW : 0 < cellW sk).
    { unfold cellW. apply Rdiv_lt_0_compat; [exact Hw|]. now apply lt_0_INR. }
    assert (HcH : 0 < cellH sk).
    { unfold cellH. apply Rdiv_lt_0_compat; [exact Hh|]. apply lt_0_INR. lia. }
    rewrite (comfortAt_in_cell sk _ i j) by
      (try assumption; unfold cell_x, cell_y; nra).
    now apply grid_get_act.
Qed.

Lemma comfortAt_reads_cell_witness :
  let sk := setup (fun _ _ => 0.5) in
  comfortAt sk (MapAgent.act sk Heat 9) (cell_x sk 69) (cell_y sk 0)
  = Some (MapAgent.cell_comfort sk Heat 9 69 0).
Proof.
  intros sk.
  refine (proj2 (comfortAt_reads_cell sk Heat 9 69 0 (valid_setup _) _ _));
    cbn; lia.
Defined.

(** * Steering *)

(** X20. A cyclist steers up the gradient.  When the perceived gradient
    [g] is not flat (its length is at least 0.0005) and the cyclist is no
    faster than 7/3, [decide] draws no random number and adds to 0.75
    times the old velocity the vector [g] scaled to length 0.25, which has
    a positive scalar product with [g]. *)
Theorem decide_follows_gradient c g s :
  Cyclist.perceivedGradient c = Some g ->
  0.0005 <= P5.mag g -> P5.mag (Cyclist.vel c) <= 7 / 3 ->
  exists c',
    Cyclist.decide c s = Some (c', s) /\
    Cyclist.vel c'
    = P5.add (P5.mult (Cyclist.vel c) 0.75)
             (P5.mult (P5.mult g (1 / P5.mag g)) 0.25) /\
    P5.mag (P5.mult (P5.mult g (1 / P5.mag g)) 0.25) = 0.25 /\
    0 < (P5.vx (Cyclist.vel c') - 0.75 * P5.vx (Cyclist.vel c)) * P5.vx g
        + (P5.vy (Cyclist.vel c') - 0.75 * P5.vy (Cyclist.vel c)) * P5.vy g.
Proof.
  intros Hg Hsteep Hslow.
  assert (Hnorm : P5.normalize g = P5.mult g (1 / P5.mag g)).
  { unfold P5.normalize. destruct (Req_dec_T (P5.mag g) 0); [lra | reflexivity]. }
  assert (Hflat : Rltb (P5.mag g) 0.0005 = false) by now apply Rltb_false.
  assert (Hlimit : Cyclist.limit
                     (P5.add (P5.mult (Cyclist.vel c) 0.75)
                             (P5.mult (P5.normalize g) 0.25))
                   = P5.add (P5.mult (Cyclist.vel c) 0.75)
                            (P5.mult (P5.normalize g) 0.25)).
  { apply limit_idle. unfold Cyclist.maxSpeed.
    eapply Rle_trans; [apply blend_speed|]. lra. }
  eexists. split.
  { unfold Cyclist.decide, bind, lift, ret. rewrite Hg, Hflat. reflexivity. }
  cbn [Cyclist.vel]. rewrite Hlimit, Hnorm.
  split; [reflexivity|]. split.
  - rewrite <- Hnorm, mag_mult, mag_normalize by lra.
    rewrite Rabs_right by lra. lra.
  - cbn [P5.add P5.mult P5.vx P5.vy].
    pose proof (mag_sqr g) as Hsq.
    assert (Hinv : 0 < 1 / P5.mag g) by (apply Rdiv_lt_0_compat; lra).
    assert (Hpos : 0 < P5.mag g * P5.mag g) by nra.
    replace ((P5.vx (Cyclist.vel c) * 0.75 + P5.vx g * (1 / P5.mag g) * 0.25
              - 0.75 * P5.vx (Cyclist.vel c)) * P5.vx g
             + (P5.vy (Cyclist.vel c) * 0.75 + P5.vy g * (1 / P5.mag g) * 0.25
                - 0.75 * P5.vy (Cyclist.vel c)) * P5.vy g)
      with (0.25 * (1 / P5.mag g)
            * (P5.vx g * P5.vx g + P5.vy g * P5.vy g)) by ring.
    rewrite <- Hsq. nra.
Qed.

Lemma decide_follows_gradient_witness :
  exists c',
    Cyclist.decide
      (Cyclist.mk 300 450 (P5.createVector 1 0) []
                  (Some (P5.createVector 0.03 0.04)) (Some 0.5))
      (fun _ => 0)
    = Some (c', fun _ => 0).
Proof.
  assert (Hmag : P5.mag (P5.createVector 0.03 0.04) = 0.05).
  { unfold P5.mag; cbn.
    replace (0.03 * 0.03 + 0.04 * 0.04) with (0.05 * 0.05) by lra.
    apply sqrt_square. lra. }
  assert (Hvel : P5.mag (P5.createVector 1 0) = 1).
  { unfold P5.mag; cbn.
    replace (1 * 1 + 0 * 0) with (1 * 1) by lra. apply sqrt_square. lra. }
  destruct (decide_follows_gradient
              (Cyclist.mk 300 450 (P5.createVector 1 0) []
                          (Some (P5.createVector 0.03 0.04)) (Some 0.5))
              (P5.createVector 0.03 0.04) (fun _ => 0) eq_refl)
    as (c' & Hrun & _).
  - rewrite Hmag. lra.
  - cbn [Cyclist.vel]. rewrite Hvel. lra.
  - exists c'. exact Hrun.
Defined.

(** X21. In every weather mode the blend does not rise when a cell gets
    hotter, farther from the pods, rainier or lower in noise: it is
    non-increasing in the temperature and rain terms and non-decreasing in
    the eco and noise terms, and so is the clamped comfort. *)
Theorem blend_monotone mode temp temp' eco eco' rain rain' base base' :
  temp <= temp' -> eco' <= eco -> rain <= rain' -> base' <= base ->
  MapAgent.blend mode temp' eco' rain' base'
  <= MapAgent.blend mode temp eco rain base /\
  P5.constrain (MapAgent.blend mode temp' eco' rain' base') 0 1
  <= P5.constrain (MapAgent.blend mode temp eco rain base) 0 1.
Proof.
  intros Ht He Hr Hb.
  assert (Hle : MapAgent.blend mode temp' eco' rain' base'
                <= MapAgent.blend mode temp eco rain base)
    by (destruct mode; cbn; lra).
  split; [exact Hle | now apply constrain_mono].
Qed.

Lemma blend_monotone_witness :
  MapAgent.blend Heat 1 0 1 0 <= MapAgent.blend Heat 0 1 0 1.
Proof.
  refine (proj1 (blend_monotone Heat 0 1 1 0 0 1 1 0 _ _ _ _)); lra.
Defined.

Lemma minPod_nearest_witness :
  MapAgent.minPod (setup (fun _ _ => 0)) 0 0
  <= P5.dist 0 0 (600 * 0.3) (900 * 0.25).
Proof.
  destruct (minPod_nearest (setup (fun _ _ => 0)) 0 0) as (_ & Hle & _).
  apply (Hle (mkPoint (600 * 0.3) (900 * 0.25))). now left.
Defined.

(** * The per-frame update at the margin *)

Lemma mag_axis v :
  P5.vy v = 0 -> 0 <= P5.vx v -> P5.mag v = P5.vx v.
Proof.
  intros Hy Hx. unfold P5.mag. rewrite Hy, Rmult_0_l, Rplus_0_r.
  now apply sqrt_square.
Qed.

(** A decide on a flat gradient whose two draws are both 0.5: the
    substitute direction is the zero vector, which [normalize] leaves
    alone, so the velocity is just scaled by 0.75. *)
Lemma decide_still c g s :
  Cyclist.perceivedGradient c = Some g -> P5.mag g < 0.0005 ->
  s 0%nat = 0.5 -> s 1%nat = 0.5 -> P5.mag (Cyclist.vel c) <= 7 / 3 ->
  exists c',
    Cyclist.decide c s = Some (c', fun n => s (2 + n)%nat) /\
    Cyclist.x c' = Cyclist.x c /\ Cyclist.y c' = Cyclist.y c /\
    Cyclist.trail c' = Cyclist.trail c /\
    Cyclist.localComfort c' = Cyclist.localComfort c /\
    P5.vx (Cyclist.vel c') = 0.75 * P5.vx (Cyclist.vel c) /\
    P5.vy (Cyclist.vel c') = 0.75 * P5.vy (Cyclist.vel c).
Proof.
  intros Hg Hflat H0 H1 Hslow. apply Rltb_true in Hflat.
  set (r := P5.createVector (s 0%nat * (0.5 - -0.5) + -0.5)
                            (s 1%nat * (0.5 - -0.5) + -0.5)).
  assert (Hr : P5.normalize r = r).
  { unfold P5.normalize. destruct (Req_dec_T (P5.mag r) 0) as [_ | Hne];
      [reflexivity|].
    exfalso. apply Hne. unfold P5.mag, r; cbn. rewrite H0, H1.
    replace ((0.5 * (0.5 - -0.5) + -0.5) * (0.5 * (0.5 - -0.5) + -0.5)
             + (0.5 * (0.5 - -0.5) + -0.5) * (0.5 * (0.5 - -0.5) + -0.5))
      with 0 by lra.
    apply sqrt_0. }
  assert (Hlimit : Cyclist.limit
                     (P5.add (P5.mult (Cyclist.vel c) 0.75)
                             (P5.mult (P5.normalize r) 0.25))
                   = P5.add (P5.mult (Cyclist.vel c) 0.75)
                            (P5.mult (P5.normalize r) 0.25)).
  { apply limit_idle. unfold Cyclist.maxSpeed.
    eapply Rle_trans; [apply blend_speed|]. lra. }
  eexists. split.
  { unfold Cyclist.decide, bind, lift, ret, random_range, rand; cbn.
    rewrite Hg. cbn. rewrite Hflat. cbn. reflexivity. }
  cbn [Cyclist.x Cyclist.y Cyclist.trail Cyclist.localComfort Cyclist.vel].
  fold r. rewrite Hlimit, Hr.
  repeat split; unfold r; cbn; rewrite ?H0, ?H1; lra.
Qed.

(** C5. When the per-frame update (perceive, decide, act) moves a cyclist
    onto the boundary margin, [x = width + 40], it triggers a respawn.  The
    move is at most 2.0 long, so the cyclist was beyond the right edge of
    the playfield when [perceive] sampled its position; the sample read 0,
    which is below 0.18, and the test of [act] hands over to [respawn]. *)
Theorem respawn_at_margin sk g c s c1 s1 c2 s2 :
  Cyclist.perceive sk g c s = Some (c1, s1) ->
  Cyclist.decide c1 s1 = Some (c2, s2) ->
  Cyclist.x (Cyclist.moved c2) = width sk + 40 ->
  width sk + 38 <= Cyclist.x c /\
  Cyclist.localComfort c2 = Some 0 /\
  Cyclist.must_respawn sk (Cyclist.moved c2) = true /\
  Cyclist.frame sk g c s = Cyclist.respawn sk (Cyclist.moved c2) s2.
Proof.
  intros Hp Hd Hx.
  destruct (perceive_inv _ _ _ _ _ _ Hp)
    as (Hx1 & _ & _ & _ & Hl1 & [grad Hgrad] & _).
  destruct (decide_runs c1 grad s1 Hgrad)
    as (c3 & s3 & Hd' & Hx2 & _ & _ & Hl2 & Hvel).
  rewrite Hd' in Hd. injection Hd as <- <-.
  assert (Hspeed : P5.mag (Cyclist.vel c3) <= 2.0)
    by (rewrite Hvel; apply limit_capped).
  pose proof (component_le_mag (Cyclist.vel c3)) as [Hvx _].
  cbn in Hx. rewrite Hx2, Hx1 in Hx.
  assert (Hout : width sk + 38 <= Cyclist.x c) by lra.
  assert (Hzero : Cyclist.localComfort c3 = Some 0).
  { rewrite Hl2, Hl1. apply comfortAt_outside. lra. }
  assert (Hyes : Cyclist.must_respawn sk (Cyclist.moved c3) = true).
  { apply must_respawn_true. do 4 right. cbn. rewrite Hzero. cbn.
    apply Rltb_true. lra. }
  split; [exact Hout|]. split; [exact Hzero|]. split; [exact Hyes|].
  unfold Cyclist.frame, bind. rewrite Hp, Hd'. now apply act_respawns.
Qed.

Lemma respawn_at_margin_witness :
  let sk := setup (fun _ _ => 0.5) in
  let g := MapAgent.act sk Sunny 1 in
  exists c1 s1 c2 s2,
    Cyclist.perceive sk g margin_cyclist (fun _ => 0.5) = Some (c1, s1) /\
    Cyclist.decide c1 s1 = Some (c2, s2) /\
    Cyclist.x (Cyclist.moved c2) = width sk + 40 /\
    Cyclist.frame sk g margin_cyclist (fun _ => 0.5)
    = Cyclist.respawn sk (Cyclist.moved c2) s2.
Proof.
  intros sk g.
  assert (Hp := perceive_eq sk g margin_cyclist (fun _ => 0.5) 0 0 0 0 0
                  ltac:(apply comfortAt_outside; cbn; lra)
                  ltac:(apply comfortAt_outside; cbn; lra)
                  ltac:(apply comfortAt_outside; cbn; lra)
                  ltac:(apply comfortAt_outside; cbn; lra)
                  ltac:(apply comfortAt_outside; cbn; lra)).
  set (c1 := Cyclist.mk (Cyclist.x margin_cyclist) (Cyclist.y margin_cyclist)
               (Cyclist.vel margin_cyclist) (Cyclist.trail margin_cyclist)
               (Some (P5.createVector ((0 - 0) / (2 * 10)) ((0 - 0) / (2 * 10))))
               (Some 0)) in *.
  destruct (decide_still c1
              (P5.createVector ((0 - 0) / (2 * 10)) ((0 - 0) / (2 * 10)))
              (fun _ => 0.5) eq_refl) as (c2 & Hd & Hx2 & _ & _ & _ & Hvx & _);
    try reflexivity.
  - unfold P5.mag; cbn.
    replace ((0 - 0) / (2 * 10) * ((0 - 0) / (2 * 10))
             + (0 - 0) / (2 * 10) * ((0 - 0) / (2 * 10))) with 0
      by (unfold Rdiv; ring).
    rewrite sqrt_0. lra.
  - cbn [Cyclist.vel c1 margin_cyclist].
    rewrite mag_axis by (cbn; lra). cbn. lra.
  - assert (Hx : Cyclist.x (Cyclist.moved c2) = width sk + 40).
    { cbn. rewrite Hx2, Hvx. cbn. lra. }
    exists c1. eexists. exists c2. eexists.
    split; [exact Hp|]. split; [exact Hd|]. split; [exact Hx|].
    apply (respawn_at_margin sk g margin_cyclist (fun _ => 0.5)
             c1 _ c2 _ Hp Hd Hx).
Defined.

(** * Respawn in the configured sketch *)

(** C4. In the sketch as [setup] configures it, with a noise function
    that is not negative and draws in [[0, 1)], every respawn puts the
    cyclist at a distance in [[10, 60]] of an eco-pod, empties the trail
    and draws both velocity components in [[-1, 1]].  The respawn test no
    longer holds then: the new position is within the margin, and the
    comfort that [perceive] samples there, on the grid of any field pass,
    before [act] tests again, is at least 0.18. *)
Theorem respawn_resets nf mode frameCount c s :
  (forall a b, 0 <= nf a b) -> unit_tape s ->
  let sk := setup nf in
  let g := MapAgent.act sk mode frameCount in
  exists c1 s1 p c2 v,
    Cyclist.respawn sk c s = Some (c1, s1) /\
    In p (ecoPods sk) /\
    10 <= P5.dist (Cyclist.x c1) (Cyclist.y c1) (px p) (py p) <= 60 /\
    Cyclist.trail c1 = [] /\
    -1 <= P5.vx (Cyclist.vel c1) <= 1 /\
    -1 <= P5.vy (Cyclist.vel c1) <= 1 /\
    Cyclist.perceive sk g c1 s1 = Some (c2, s1) /\
    Cyclist.x c2 = Cyclist.x c1 /\ Cyclist.y c2 = Cyclist.y c1 /\
    Cyclist.trail c2 = [] /\
    Cyclist.localComfort c2 = Some v /\ 0.18 <= v /\
    Cyclist.must_respawn sk c2 = false.
Proof.
  intros Hnoise Htape sk g.
  assert (Hv : valid_sketch sk) by apply valid_setup.
  destruct (random_pick (ecoPods sk) (s 0%nat)) as (p & Hnth & Hin);
    [discriminate | apply Htape |].
  destruct (respawn_runs sk c s p Hnth) as (c1 & s1 & Hrun).
  exists c1, s1, p. rewrite Hrun.
  apply respawn_inv in Hrun. destruct Hrun as (p' & Hnth' & Hc1 & _).
  rewrite Hnth in Hnth'. injection Hnth' as <-.
  pose proof (random_range_bounds (s 2%nat) 10 60 (Htape 2%nat)) as Hrad.
  pose proof (random_range_bounds (s 3%nat) (-1) 1 (Htape 3%nat)) as Hvx.
  pose proof (random_range_bounds (s 4%nat) (-1) 1 (Htape 4%nat)) as Hvy.
  set (radius := s 2%nat * (60 - 10) + 10) in *.
  set (angle := s 1%nat * P5.TWO_PI) in *.
  assert (Hr : 0 <= radius <= 60) by lra.
  destruct (pods_setup nf p Hin) as [Hpx Hpy].
  pose proof (polar_offset_bounded (cos angle) radius (COS_bound angle)
                ltac:(lra)) as Ha.
  pose proof (polar_offset_bounded (sin angle) radius (SIN_bound angle)
                ltac:(lra)) as Hb.
  assert (Hx1 : Cyclist.x c1 = px p + cos angle * radius) by now rewrite Hc1.
  assert (Hy1 : Cyclist.y c1 = py p + sin angle * radius) by now rewrite Hc1.
  assert (Ht1 : Cyclist.trail c1 = []) by now rewrite Hc1.
  assert (Hvx1 : P5.vx (Cyclist.vel c1) = s 3%nat * (1 - -1) + -1)
    by now rewrite Hc1.
  assert (Hvy1 : P5.vy (Cyclist.vel c1) = s 4%nat * (1 - -1) + -1)
    by now rewrite Hc1.
  destruct (comfortAt_act sk mode frameCount (Cyclist.x c1) (Cyclist.y c1) Hv)
    as (i & j & _ & _ & Hi & Hj & Hsample);
    [rewrite Hx1; cbn; lra | rewrite Hy1; cbn; lra |].
  fold g in Hsample.
  assert (Hcomf : 0.18 <= MapAgent.cell_comfort sk mode frameCount i j).
  { apply (comfort_near_pod nf mode frameCount i j p angle radius);
      try assumption; [now rewrite <- Hx1 | now rewrite <- Hy1]. }
  destruct (perceive_runs sk g c1 s1 Hv (act_dims sk mode frameCount))
    as (c2 & Hperceive).
  pose proof (perceive_inv _ _ _ _ _ _ Hperceive)
    as (Hx2 & Hy2 & _ & Ht2 & Hl2 & _ & _).
  rewrite Hsample in Hl2.
  exists c2, (MapAgent.cell_comfort sk mode frameCount i j).
  split; [reflexivity|]. split; [exact Hin|].
  split; [rewrite Hx1, Hy1, dist_polar by lra; lra|].
  split; [exact Ht1|]. split; [lra|]. split; [lra|].
  split; [exact Hperceive|]. split; [exact Hx2|]. split; [exact Hy2|].
  split; [now rewrite Ht2|]. split; [exact Hl2|]. split; [exact Hcomf|].
  apply must_respawn_false. rewrite Hx2, Hy2, Hx1, Hy1, Hl2. cbn.
  rewrite Rltb_false. lra.
Qed.

Lemma respawn_resets_witness :
  let sk := setup (fun _ _ => 0.5) in
  exists c1 s1 c2,
    Cyclist.new sk (fun _ => 0.5) = Some (c1, s1) /\
    Cyclist.trail c1 = [] /\
    Cyclist.perceive sk (MapAgent.act sk Heat 1) c1 s1 = Some (c2, s1) /\
    Cyclist.must_respawn sk c2 = false.
Proof.
  intros sk.
  destruct (respawn_resets (fun _ _ => 0.5) Heat 1
              (Cyclist.mk 0 0 (P5.createVector 0 0) [] None None)
              (fun _ => 0.5))
    as (c1 & s1 & p & c2 & v & Hrun & _ & _ & Ht & _ & _ & Hp & _ & _ & _
        & _ & _ & Hno).
  - intros a b. lra.
  - intros k. lra.
  - exists c1, s1, c2. split; [exact Hrun|]. split; [exact Ht|].
    split; [exact Hp | exact Hno].
Defined.

(** * The trail over a run of frames *)

Lemma appended_step sk g c s cp sp cd c' s' :
  Cyclist.perceive sk g c s = Some (cp, sp) ->
  Cyclist.decide cp sp = Some (cd, s') ->
  Cyclist.must_respawn sk (Cyclist.moved cd) = false ->
  Cyclist.frame sk g c s = Some (c', s') ->
  c' = Cyclist.moved cd /\
  Cyclist.trail c'
  = Cyclist.trail_push (Cyclist.trail c)
      (mkPoint (Cyclist.x c') (Cyclist.y c')).
Proof.
  intros Hp Hd Hno Hframe.
  unfold Cyclist.frame, bind in Hframe. rewrite Hp, Hd in Hframe.
  rewrite act_stays in Hframe by exact Hno. injection Hframe as <-.
  split; [reflexivity|].
  apply perceive_inv in Hp. destruct Hp as (_ & _ & _ & Ht1 & _).
  apply decide_inv in Hd. destruct Hd as (_ & _ & Ht2 & _).
  cbn. now rewrite Ht2, Ht1.
Qed.

Lemma appended_reachable sk c0 ps c :
  Cyclist.reachable sk c0 -> appended sk c0 ps c -> Cyclist.reachable sk c.
Proof.
  intros Hreach Happ.
  induction Happ as [|ps c g s cp sp cd c' s' _ IH _ _ _ Hframe];
    [exact Hreach|].
  exact (Cyclist.reach_frame sk g s c c' s' IH Hframe).
Qed.

(** The trail after such a run is the old trail with the new positions
    pushed one by one. *)
Lemma appended_trail sk c0 ps c :
  appended sk c0 ps c ->
  Cyclist.trail c = fold_left Cyclist.trail_push ps (Cyclist.trail c0).
Proof.
  induction 1 as [|ps c g s cp sp cd c' s' _ IH Hp Hd Hno Hframe];
    [reflexivity|].
  destruct (appended_step _ _ _ _ _ _ _ _ _ Hp Hd Hno Hframe) as [_ Htrail].
  rewrite fold_left_app. cbn [fold_left]. now rewrite <- IH.
Qed.

(** C6. The trail of a cyclist never exceeds 80 entries, and it is a
    first-in first-out window.  It holds at most 80 entries in every
    reachable state.  After a run of frames without a respawn it holds
    exactly the last 80 entries of what it held before followed by the
    positions these frames appended, in order; so after 81 such frames it
    holds the positions of the last 80 of them, and the first position
    appended is no longer there. *)
Theorem trail_bounded_and_fifo sk :
  (forall c, Cyclist.reachable sk c -> (length (Cyclist.trail c) <= 80)%nat) /\
  (forall c0 ps c,
     Cyclist.reachable sk c0 -> appended sk c0 ps c ->
     Cyclist.reachable sk c /\
     Cyclist.trail c
     = skipn (length (Cyclist.trail c0 ++ ps) - 80) (Cyclist.trail c0 ++ ps) /\
     (forall p ps', ps = p :: ps' -> length ps = 81%nat ->
        Cyclist.trail c = ps' /\ (NoDup ps -> ~ In p (Cyclist.trail c)))).
Proof.
  split; [apply reachable_trail|].
  intros c0 ps c Hreach Happ.
  pose proof (reachable_trail sk c0 Hreach) as Hlen.
  assert (Htrail : Cyclist.trail c
                   = skipn (length (Cyclist.trail c0 ++ ps) - 80)
                           (Cyclist.trail c0 ++ ps)).
  { rewrite (appended_trail sk c0 ps c Happ). now apply trail_push_all. }
  split; [eapply appended_reachable; eassumption|].
  split; [exact Htrail|].
  intros p ps' -> Hps.
  assert (Hrest : Cyclist.trail c = ps').
  { rewrite Htrail, length_app, Hps.
    replace (length (Cyclist.trail c0) + 81 - 80)%nat
      with (length (Cyclist.trail c0) + 1)%nat by lia.
    rewrite skipn_app, skipn_all2 by lia.
    replace (length (Cyclist.trail c0) + 1 - length (Cyclist.trail c0))%nat
      with 1%nat by lia.
    reflexivity. }
  split; [exact Hrest|].
  intros Hnodup. rewrite Hrest. now inversion Hnodup.
Qed.

(** ** A run on a flat field *)

Lemma flat_grid_dims sk k :
  grid_dims sk (flat_grid sk k) /\ grid_const k (flat_grid sk k).
Proof.
  unfold flat_grid. split; [split|].
  - apply repeat_length.
  - apply Forall_forall. intros col Hin. apply repeat_spec in Hin. subst col.
    apply repeat_length.
  - apply Forall_forall. intros col Hin. apply repeat_spec in Hin. subst col.
    apply Forall_forall. intros v Hv. now apply repeat_spec in Hv.
Qed.

(** One frame on a flat, comfortable field with both draws equal to 0.5:
    the cyclist keeps its heading, slows down to three quarters of its
    speed and is not respawned. *)
Lemma flat_frame sk k c :
  valid_sketch sk -> 0.18 <= k ->
  10 <= Cyclist.x c < width sk - 10 ->
  10 <= Cyclist.y c < height sk - 10 ->
  P5.mag (Cyclist.vel c) <= 7 / 3 ->
  exists cp cd s',
    Cyclist.perceive sk (flat_grid sk k) c (fun _ => 0.5)
    = Some (cp, fun _ => 0.5) /\
    Cyclist.decide cp (fun _ => 0.5) = Some (cd, s') /\
    Cyclist.must_respawn sk (Cyclist.moved cd) = false /\
    Cyclist.frame sk (flat_grid sk k) c (fun _ => 0.5)
    = Some (Cyclist.moved cd, s') /\
    Cyclist.x cd = Cyclist.x c /\ Cyclist.y cd = Cyclist.y c /\
    P5.vx (Cyclist.vel cd) = 0.75 * P5.vx (Cyclist.vel c) /\
    P5.vy (Cyclist.vel cd) = 0.75 * P5.vy (Cyclist.vel c).
Proof.
  intros Hv Hk Hx Hy Hslow.
  destruct (flat_grid_dims sk k) as [Hdims Hconst].
  set (g := flat_grid sk k) in *.
  assert (Hp := perceive_eq sk g c (fun _ => 0.5) k k k k k
                  ltac:(apply comfortAt_const; (assumption || lra))
                  ltac:(apply comfortAt_const; (assumption || lra))
                  ltac:(apply comfortAt_const; (assumption || lra))
                  ltac:(apply comfortAt_const; (assumption || lra))
                  ltac:(apply comfortAt_const; (assumption || lra))).
  set (g0 := P5.createVector ((k - k) / (2 * 10)) ((k - k) / (2 * 10))) in *.
  set (cp := Cyclist.mk (Cyclist.x c) (Cyclist.y c) (Cyclist.vel c)
               (Cyclist.trail c) (Some g0) (Some k)) in *.
  assert (Hflat : P5.mag g0 < 0.0005).
  { unfold P5.mag, g0; cbn.
    replace ((k - k) / (2 * 10) * ((k - k) / (2 * 10))
             + (k - k) / (2 * 10) * ((k - k) / (2 * 10))) with 0
      by (unfold Rdiv; ring).
    rewrite sqrt_0. lra. }
  destruct (decide_still cp g0 (fun _ => 0.5) eq_refl Hflat eq_refl eq_refl
              Hslow) as (cd & Hd & Hxd & Hyd & _ & Hld & Hvx & Hvy).
  cbn [Cyclist.x Cyclist.y Cyclist.vel Cyclist.localComfort cp] in *.
  pose proof (component_le_mag (Cyclist.vel c)) as [Hbx Hby].
  assert (Hno : Cyclist.must_respawn sk (Cyclist.moved cd) = false).
  { apply must_respawn_false. cbn. rewrite Hxd, Hyd, Hvx, Hvy, Hld. cbn.
    rewrite Rltb_false. lra. }
  exists cp, cd. eexists.
  split; [exact Hp|]. split; [exact Hd|]. split; [exact Hno|].
  split; [|tauto].
  unfold Cyclist.frame, bind. rewrite Hp, Hd. now apply act_stays.
Qed.

Lemma start_tape_unit : unit_tape start_tape.
Proof. intros k. unfold start_tape. destruct (k =? 3)%nat; lra. Qed.

(** The cyclist that [new] builds from [start_tape] in the sketch of
    [setup]: well inside the playfield, with velocity (0.5, 0). *)
Lemma start_state nf :
  exists c0 s',
    Cyclist.new (setup nf) start_tape = Some (c0, s') /\
    120 <= Cyclist.x c0 <= 480 /\ 165 <= Cyclist.y c0 <= 780 /\
    P5.vx (Cyclist.vel c0) = 0.5 /\ P5.vy (Cyclist.vel c0) = 0 /\
    Cyclist.trail c0 = [].
Proof.
  destruct (random_pick (ecoPods (setup nf)) (start_tape 0%nat))
    as (p & Hnth & Hin); [discriminate | apply start_tape_unit |].
  destruct (respawn_runs (setup nf)
              (Cyclist.mk 0 0 (P5.createVector 0 0) [] None None)
              start_tape p Hnth) as (c0 & s' & Hrun).
  exists c0, s'. split; [exact Hrun|].
  apply respawn_inv in Hrun. destruct Hrun as (p' & Hnth' & -> & _).
  rewrite Hnth in Hnth'. injection Hnth' as <-.
  destruct (pods_setup nf p Hin) as [Hpx Hpy].
  set (angle := start_tape 1%nat * P5.TWO_PI).
  assert (Hrad : start_tape 2%nat * (60 - 10) + 10 = 35)
    by (unfold start_tape; cbn; lra).
  pose proof (polar_offset_bounded (cos angle) 35 (COS_bound angle)
                ltac:(lra)) as Ha.
  pose proof (polar_offset_bounded (sin angle) 35 (SIN_bound angle)
                ltac:(lra)) as Hb.
  cbn [Cyclist.x Cyclist.y Cyclist.vel Cyclist.trail P5.vx P5.vy].
  fold angle. rewrite Hrad.
  repeat split; try lra; unfold start_tape; cbn; lra.
Qed.

(** From such a start, any number of frames on the flat field 0.5: no
    respawn, the cyclist drifts to the right ever more slowly, and the
    positions it passes through are pairwise distinct. *)
Lemma flat_run nf c0 :
  120 <= Cyclist.x c0 <= 480 -> 165 <= Cyclist.y c0 <= 780 ->
  P5.vx (Cyclist.vel c0) = 0.5 -> P5.vy (Cyclist.vel c0) = 0 ->
  forall n, exists ps c,
    appended (setup nf) c0 ps c /\ length ps = n /\
    (Cyclist.x c + 3 * P5.vx (Cyclist.vel c) = Cyclist.x c0 + 1.5 /\
     0 < P5.vx (Cyclist.vel c) <= 0.5 /\ P5.vy (Cyclist.vel c) = 0 /\
     Cyclist.y c = Cyclist.y c0) /\
    Forall (fun p => px p <= Cyclist.x c) ps /\ NoDup ps.
Proof.
  intros Hx0 Hy0 Hvx0 Hvy0. induction n as [|n IH].
  - exists [], c0. split; [constructor|]. split; [reflexivity|].
    split; [lra|]. split; constructor.
  - destruct IH as (ps & c & Happ & Hlen & (Hsum & Hvx & Hvy & Hy) & Hleft & Hnd).
    destruct (flat_frame (setup nf) 0.5 c (valid_setup nf))
      as (cp & cd & s' & Hp & Hd & Hno & Hframe & Hxd & Hyd & Hvxd & Hvyd).
    { lra. }
    { cbn. lra. }
    { cbn. lra. }
    { rewrite mag_axis by lra. lra. }
    set (c' := Cyclist.moved cd) in *.
    assert (Hx' : Cyclist.x c' = Cyclist.x c + 0.75 * P5.vx (Cyclist.vel c))
      by (unfold c'; cbn; lra).
    assert (Hy' : Cyclist.y c' = Cyclist.y c)
      by (unfold c'; cbn; lra).
    assert (Hv' : Cyclist.vel c' = Cyclist.vel cd) by reflexivity.
    exists (ps ++ [mkPoint (Cyclist.x c') (Cyclist.y c')]), c'.
    split; [exact (appended_frame _ _ _ _ _ _ _ _ _ _ _ Happ Hp Hd Hno Hframe)|].
    split; [rewrite length_app; cbn; lia|].
    split; [rewrite Hv', Hvxd, Hvyd, Hx', Hy'; lra|].
    split.
    + apply Forall_app. split.
      * eapply Forall_impl; [|exact Hleft]. intros p Hp0. cbn in Hp0. lra.
      * constructor; [cbn; lra | constructor].
    + apply NoDup_app; [exact Hnd | constructor; [intros [] | constructor] |].
      intros a Hin [<- | []].
      rewrite Forall_forall in Hleft. specialize (Hleft _ Hin). cbn in Hleft.
      lra.
Qed.

Lemma trail_bounded_and_fifo_witness :
  let sk := setup (fun _ _ => 0) in
  exists c0 p ps' c,
    Cyclist.reachable sk c0 /\
    appended sk c0 (p :: ps') c /\
    length (p :: ps') = 81%nat /\
    Cyclist.trail c = ps' /\
    ~ In p (Cyclist.trail c) /\
    (length (Cyclist.trail c) <= 80)%nat.
Proof.
  intros sk.
  destruct (start_state (fun _ _ => 0))
    as (c0 & s' & Hnew & Hx0 & Hy0 & Hvx0 & Hvy0 & _).
  assert (Hreach : Cyclist.reachable sk c0)
    by exact (Cyclist.reach_new _ _ _ _ Hnew).
  destruct (flat_run (fun _ _ => 0) c0 Hx0 Hy0 Hvx0 Hvy0 81)
    as (ps & c & Happ & Hlen & _ & _ & Hnd).
  destruct ps as [|p ps']; [discriminate|].
  destruct (trail_bounded_and_fifo sk) as [Hbound Hfifo].
  destruct (Hfifo c0 (p :: ps') c Hreach Happ) as (Hreach' & _ & Hlast).
  destruct (Hlast p ps' eq_refl Hlen) as [Htrail Hgone].
  exists c0, p, ps', c.
  split; [exact Hreach|]. split; [exact Happ|]. split; [exact Hlen|].
  split; [exact Htrail|]. split; [exact (Hgone Hnd)|].
  apply Hbound. exact Hreach'.
Defined.

Lemma trail_is_connected_witness :
  let sk := setup (fun _ _ => 0) in
  exists c,
    Cyclist.reachable sk c /\ length (Cyclist.trail c) = 3%nat /\
    steps_within 2.0 (Cyclist.trail c) /\ trail_ends_here c.
Proof.
  intros sk.
  destruct (start_state (fun _ _ => 0))
    as (c0 & s' & Hnew & Hx0 & Hy0 & Hvx0 & Hvy0 & Ht0).
  assert (Hreach : Cyclist.reachable sk c0)
    by exact (Cyclist.reach_new _ _ _ _ Hnew).
  destruct (flat_run (fun _ _ => 0) c0 Hx0 Hy0 Hvx0 Hvy0 3)
    as (ps & c & Happ & Hlen & _).
  pose proof (appended_reachable sk c0 ps c Hreach Happ) as Hreach'.
  assert (Htrail : Cyclist.trail c = ps).
  { rewrite (appended_trail sk c0 ps c Happ), Ht0.
    rewrite trail_push_all by (cbn; lia). cbn [app].
    replace (length ps - 80)%nat with 0%nat by lia. reflexivity. }
  exists c. split; [exact Hreach'|].
  split; [now rewrite Htrail|].
  apply (trail_is_connected sk c Hreach').
Defined.
